(** * wagtail-meilisearch: the document model and the search pipeline

    A shallow embedding of [wagtail_meilisearch/backend.py].

    Conventions.
    - A Python [str] is a Rocq [string]; one character of the Rocq string
      stands for one code point below 256.
    - A Python [dict] that is only read by key (a document) is a [gmap].
      A [dict] that is also rendered by [str] (the match metadata of a hit)
      is an association list in insertion order; Python's [==] on it is
      equality of the finite maps the lists denote, which does not look at
      the order of the keys.
    - Django, Wagtail and the Meilisearch service are not part of the
      module: what the module asks of them ([field.get_value],
      [apps.get_models], [issubclass], [class_is_indexed], the rows of a
      queryset, the hits of an index) enters as section variables or as
      fields of an environment record.
    - Remote calls and datastore evaluations are recorded in a log carried
      by a small state-and-exception monad, so that statements of the form
      "no remote call is made" can be stated. The index service and the
      datastore answer every call; the exceptions of the model are the
      ones raised on the module's own paths: [NotImplementedError], a
      failing [check], the call of a compiler class that is [None]. *)

From stdpp Require Import gmap strings list fin_maps pretty sorting.
From Stdlib Require Import ZArith Ascii.

Set Warnings "-register-all".

Local Open Scope string_scope.
Local Open Scope list_scope.
Local Open Scope Z_scope.

(* ===================================================================== *)
(** * Python helpers *)
(* ===================================================================== *)

(** [sep.join(parts)] *)
Fixpoint py_join (sep : string) (parts : list string) : string :=
  match parts with
  | [] => ""
  | [s] => s
  | s :: rest => s +:+ sep +:+ py_join sep rest
  end.

(** [dict(pairs)]: bindings are inserted left to right, a later binding of
    a key replaces the earlier one. *)
Definition py_dict {V} (pairs : list (string * V)) : gmap string V :=
  foldl (λ d kv, <[kv.1 := kv.2]> d) ∅ pairs.

(** [d.update(other)]: the bindings of [other] win. *)
Definition py_update {V} (d other : gmap string V) : gmap string V :=
  other ∪ d.

(** A value a search field can resolve to, as far as [prepare_value] tells
    values apart. [PyCallable r] is a callable whose call renders (through
    [force_text]) as [r]; [PyObj t r] is any other object, [t] its truth
    value and [r] its [force_text] rendering. *)
Inductive pyvalue :=
| PyNone
| PyStr (s : string)
| PyList (items : list pyvalue)
| PyDict (entries : list (string * pyvalue))
| PyCallable (result : string)
| PyObj (truthy : bool) (text : string).

(** [bool(value)] *)
Definition py_truthy (v : pyvalue) : bool :=
  match v with
  | PyNone => false
  | PyStr s => negb (String.eqb s "")
  | PyList items => negb (Nat.eqb (length items) 0)
  | PyDict entries => negb (Nat.eqb (length entries) 0)
  | PyCallable _ => true
  | PyObj t _ => t
  end.

(* ===================================================================== *)
(** * Field Mapper *)
(* ===================================================================== *)

(** The field descriptors of [wagtail.search.index]. *)
Inductive field :=
| SearchField (name : string)
| FilterField (name : string)
| AutocompleteField (name : string)
| RelatedFields (name : string) (fields : list field).

Definition field_name (f : field) : string :=
  match f with
  | SearchField n | FilterField n | AutocompleteField n
  | RelatedFields n _ => n
  end.

Definition AUTOCOMPLETE_SUFFIX : string := "_ngrams".
Definition FILTER_SUFFIX : string := "_filter".

Definition _get_field_mapping (f : field) : string :=
  match f with
  | FilterField n => n +:+ FILTER_SUFFIX
  | AutocompleteField n => n +:+ AUTOCOMPLETE_SUFFIX
  | _ => field_name f
  end.

(** [isinstance(field, (SearchField, FilterField, AutocompleteField))] *)
Definition is_base_field (f : field) : bool :=
  match f with
  | SearchField _ | FilterField _ | AutocompleteField _ => true
  | RelatedFields _ _ => false
  end.

(** ['{0}__{1}'.format(a, b)] *)
Definition related_key (a b : string) : string := a +:+ "__" +:+ b.

(** [MeiliSearchModelIndex.prepare_value] *)
Fixpoint prepare_value (value : pyvalue) : string :=
  if negb (py_truthy value) then ""
  else match value with
       | PyStr s => s
       | PyList items => py_join ", " (map prepare_value items)
       | PyDict entries =>
           py_join ", " (map (λ kv, prepare_value kv.2) entries)
       | PyCallable result => result
       | PyObj _ text => text
       | PyNone => ""
       end.

(* ===================================================================== *)
(** * Document Builder *)
(* ===================================================================== *)

(** What [RelatedFields.get_value] can hand back. *)
Inductive related_value (item : Type) :=
| RelManager (qs : list item)  (* a Manager or a QuerySet: [value.all()] *)
| RelModel (obj : item)        (* a single related Model instance *)
| RelOther.                    (* anything else, e.g. None *)
Arguments RelManager {item} qs.
Arguments RelModel {item} obj.
Arguments RelOther {item}.

(** A value stored in a document: the prepared strings, and the [id]. *)
Inductive docvalue :=
| DocStr (s : string)
| DocInt (z : Z).

Section DocumentBuilder.
Context {model item : Type}.
(** [model.get_search_fields()] *)
Variable get_search_fields : model → list field.
(** [item.id] *)
Variable item_id : item → Z.
(** [field.get_value(item)] for a Search, Filter or Autocomplete field,
    and for a sub-field of a related field applied to a related object *)
Variable get_value : field → item → pyvalue.
(** [field.get_value(item)] for a [RelatedFields] *)
Variable get_related : field → item → related_value item.
(** one cell of [qs.values_list(name, flat=True)] *)
Variable column : string → item → pyvalue.

(** The pairs one field of the loop of [_get_document_fields] yields. *)
Definition _get_document_fields_of (f : field) (it : item)
  : list (string * string) :=
  (if is_base_field f
   then [(_get_field_mapping f, prepare_value (get_value f it))]
   else [])
  ++
  match f with
  | RelatedFields name sub_fields =>
      match get_related f it with
      | RelManager qs =>
          map (λ sub_field,
                 (related_key name (_get_field_mapping sub_field),
                  prepare_value
                    (PyList (map (column (field_name sub_field)) qs))))
              sub_fields
      | RelModel obj =>
          map (λ sub_field,
                 (related_key name (_get_field_mapping sub_field),
                  prepare_value (get_value sub_field obj)))
              sub_fields
      | RelOther => []
      end
  | _ => []
  end.

(** [MeiliSearchModelIndex._get_document_fields]: the generator, as the
    list of the pairs it yields. *)
Definition _get_document_fields (m : model) (it : item)
  : list (string * string) :=
  flat_map (λ f, _get_document_fields_of f it) (get_search_fields m).

(** [MeiliSearchModelIndex._create_document] *)
Definition _create_document (m : model) (it : item) : gmap string docvalue :=
  let doc_fields :=
    py_dict (map (λ kv, (kv.1, DocStr kv.2)) (_get_document_fields m it)) in
  let doc_fields := py_update doc_fields {[ "id" := DocInt (item_id it) ]} in
  let document := ∅ in
  py_update document doc_fields.

End DocumentBuilder.

(* ===================================================================== *)
(** * Hits and their textual rendering *)
(* ===================================================================== *)

(** One match span, [{'start': s, 'length': n}]. *)
Record span := { span_start : Z; span_length : Z }.

Global Instance span_eq_dec : EqDecision span.
Proof. solve_decision. Defined.

(** A hit of the index service:
    [{'id': ..., <document attributes>, '_matchesInfo': {key: [span, ...]}}].
    The two dicts are kept in insertion order. *)
Record hit := {
  hit_id : Z;
  hit_attrs : list (string * string);
  hit_matchesInfo : list (string * list span)
}.

(** What Python's [==] compares on a hit: the id and the two dicts as
    finite maps. *)
Definition hit_key (h : hit)
  : Z * gmap string string * gmap string (list span) :=
  (hit_id h, py_dict (hit_attrs h), py_dict (hit_matchesInfo h)).

(** [a == b] on hits *)
Definition py_eq (a b : hit) : Prop := hit_key a = hit_key b.

Global Instance py_eq_dec : RelDecision py_eq.
Proof. intros a b. unfold py_eq. apply _. Defined.

(** [item in results] *)
Definition py_in (item : hit) (results : list hit) : bool :=
  existsb (λ r, bool_decide (py_eq r item)) results.

Definition squote : ascii := ascii_of_nat 39.
Definition dquote : ascii := ascii_of_nat 34.
Definition backslash : ascii := ascii_of_nat 92.

Definition hex_digit (n : N) : ascii :=
  match n with
  | 0 => "0" | 1 => "1" | 2 => "2" | 3 => "3" | 4 => "4" | 5 => "5"
  | 6 => "6" | 7 => "7" | 8 => "8" | 9 => "9" | 10 => "a" | 11 => "b"
  | 12 => "c" | 13 => "d" | 14 => "e" | _ => "f"
  end%N%char.

(** Code points below 256 that [repr] does not print as they are. *)
Definition nonprintable (n : N) : bool :=
  ((n <? 32) || (n =? 127) || ((128 <=? n) && (n <=? 160)) || (n =? 173))%N.

(** [repr] of one character inside the quotes [quote]. *)
Definition py_repr_char (quote c : ascii) : string :=
  let n := N_of_ascii c in
  if Ascii.eqb c quote || Ascii.eqb c backslash
  then String backslash (String c "")
  else if (n =? 9)%N then String backslash "t"
  else if (n =? 10)%N then String backslash "n"
  else if (n =? 13)%N then String backslash "r"
  else if nonprintable n
  then String backslash
         (String "x" (String (hex_digit (n / 16)) (String (hex_digit (n mod 16)) "")))
  else String c "".

Fixpoint string_mem (c : ascii) (s : string) : bool :=
  match s with
  | EmptyString => false
  | String c' s' => Ascii.eqb c c' || string_mem c s'
  end.

Fixpoint string_flat_map (f : ascii → string) (s : string) : string :=
  match s with
  | EmptyString => ""
  | String c s' => f c +:+ string_flat_map f s'
  end.

(** [repr(s)] for a [str]: single quotes, unless the string holds a single
    quote and no double quote. *)
Definition py_repr_str (s : string) : string :=
  let quote :=
    if string_mem squote s && negb (string_mem dquote s)
    then dquote else squote in
  String quote (string_flat_map (py_repr_char quote) s +:+ String quote "").

(** [repr(z)] for an [int] *)
Definition py_repr_int (z : Z) : string := pretty z.

Definition py_repr_span (sp : span) : string :=
  "{" +:+ py_repr_str "start" +:+ ": " +:+ py_repr_int (span_start sp)
  +:+ ", " +:+ py_repr_str "length" +:+ ": " +:+ py_repr_int (span_length sp)
  +:+ "}".

Definition py_repr_spans (l : list span) : string :=
  "[" +:+ py_join ", " (map py_repr_span l) +:+ "]".

(** [str(item['_matchesInfo'])] *)
Definition py_str_matches (d : list (string * list span)) : string :=
  "{" +:+ py_join ", "
            (map (λ kv, py_repr_str kv.1 +:+ ": " +:+ py_repr_spans kv.2) d)
  +:+ "}".

(** A hit after [item['score'] = ...]. *)
Record scored_hit := { item : hit; score : nat }.

(** [item['score'] = len(str(item['_matchesInfo']))] *)
Definition set_score (h : hit) : scored_hit :=
  {| item := h; score := String.length (py_str_matches (hit_matchesInfo h)) |}.

(* ===================================================================== *)
(** * Sorting *)
(* ===================================================================== *)

(** A stable sort: [before x y] says that [x] may stand in front of [y].
    An element is put in front of the first element it may stand before,
    so that, among elements that may stand before each other, the one that
    came first stays first. *)
Fixpoint stable_insert {A} (before : A → A → bool) (x : A) (l : list A)
  : list A :=
  match l with
  | [] => [x]
  | y :: l' =>
      if before x y then x :: y :: l' else y :: stable_insert before x l'
  end.

Definition stable_sort {A} (before : A → A → bool) (l : list A) : list A :=
  foldr (stable_insert before) [] l.

(** [sorted(l, key=key, reverse=reverse)]; Python's sort is stable, also
    with [reverse=True]. *)
Definition py_sorted {A} (key : A → nat) (reverse : bool) (l : list A)
  : list A :=
  stable_sort
    (λ x y, if reverse then Nat.leb (key y) (key x) else Nat.leb (key x) (key y))
    l.

(** SQL's ascending order on a nullable integer, NULL last. *)
Definition null_last_leb (a b : option nat) : bool :=
  match a, b with
  | Some x, Some y => Nat.leb x y
  | Some _, None => true
  | None, Some _ => false
  | None, None => true
  end.

(** [queryset.order_by(expr)] *)
Definition order_by {A} (expr : A → option nat) (rows : list A) : list A :=
  stable_sort (λ x y, null_last_leb (expr x) (expr y)) rows.

(** [[When(pk=pk, then=pos) for pos, pk in enumerate(ids)]] *)
Definition whens (ids : list Z) : list (Z * nat) :=
  imap (λ pos pk, (pk, pos)) ids.

(** The [Case] built from these [When]s, on a row of primary key [k]: the first [When] whose
    condition holds gives the value; NULL when none does. *)
Definition Case (ws : list (Z * nat)) (k : Z) : option nat :=
  snd <$> List.find (λ w, bool_decide (w.1 = k)) ws.

(** [queryset.distinct()]: each row once, at its first place. *)
Fixpoint distinct {A} `{EqDecision A} (rows : list A) : list A :=
  match rows with
  | [] => []
  | r :: rows' => r :: filter (λ r', r' ≠ r) (distinct rows')
  end.

(** [rows[start:stop]] *)
Definition slice {A} (start : nat) (stop : option nat) (rows : list A)
  : list A :=
  match stop with
  | None => drop start rows
  | Some e => take (e - start)%nat (drop start rows)
  end.

(* ===================================================================== *)
(** * Effects: remote calls, the descendant cache, exceptions *)
(* ===================================================================== *)

Inductive exn :=
| NotImplementedError (msg : string)
| TypeError (msg : string)
| CheckError (msg : string).

(** The calls that leave the process. *)
Inductive event :=
| GetSettings (uid : string)   (* [client.get_index(uid).get_settings()] *)
| CreateIndex (uid : string)   (* [client.create_index(uid=uid, primary_key='id')] *)
| GetIndex (uid : string)      (* [client.get_index(uid)] *)
| IndexSearch (uid terms : string) (limit : Z) (matches : string)
                               (* [index.search(terms, search_params)] *)
| DatastoreQuery.              (* the datastore evaluates a queryset *)

(** The mutable world: the uids the index service holds, the memo table of
    [get_descendant_models] (most recently used first), the call log. *)
Record state (model : Type) := State {
  remote : gset string;
  lru : list (model * list model);
  log : list event
}.
Arguments State {model} remote lru log.
Arguments remote {model} s.
Arguments lru {model} s.
Arguments log {model} s.

Definition M (model A : Type) : Type := state model → (exn + A) * state model.

Global Instance M_ret {model} : MRet (M model) := λ A x s, (inr x, s).

Global Instance M_bind {model} : MBind (M model) := λ A B f m s,
  match m s with
  | (inl e, s') => (inl e, s')
  | (inr x, s') => f x s'
  end.

Definition raise {model A} (e : exn) : M model A := λ s, (inl e, s).

Definition emit {model} (e : event) : M model unit := λ s,
  (inr (), State (remote s) (lru s) (log s ++ [e])%list).

(** [client.get_index(uid).get_settings()]: [true] when the service holds
    the uid, [false] when the call raises. *)
Definition get_settings {model} (uid : string) : M model bool := λ s,
  (inr (bool_decide (uid ∈ remote s)),
   State (remote s) (lru s) (log s ++ [GetSettings uid])%list).

(** [client.create_index(uid=uid, primary_key='id')] *)
Definition create_index {model} (uid : string) : M model unit := λ s,
  (inr (), State ({[ uid ]} ∪ remote s) (lru s) (log s ++ [CreateIndex uid])%list).

(* ===================================================================== *)
(** * Collaborators *)
(* ===================================================================== *)

(** A queryset: its model and its rows, in the datastore's default order. *)
Record queryset (model record : Type) := QuerySet {
  qs_model : model;
  qs_rows : list record
}.
Arguments QuerySet {model record} qs_model qs_rows.
Arguments qs_model {model record} q.
Arguments qs_rows {model record} q.

(** The second argument of [search]: a model class or a queryset. *)
Inductive model_or_queryset (model record : Type) :=
| AModel (m : model)
| AQuerySet (qs : queryset model record).
Arguments AModel {model record} m.
Arguments AQuerySet {model record} qs.

(** What the process reads from outside. *)
Record env (model record : Type) := Env {
  apps_get_models : list model;            (* [apps.get_models()] *)
  objects_all : model → list record;       (* [model.objects.all()] *)
  index_hits : string → string → list hit  (* uid, terms: [rv['hits']] *)
}.
Arguments Env {model record} apps_get_models objects_all index_hits.
Arguments apps_get_models {model record} e.
Arguments objects_all {model record} e.
Arguments index_hits {model record} e.

Inductive compiler_class := MeiliSearchQueryCompiler.

(** A query compiler instance: [query_compiler_class(queryset, query, **kwargs)]. *)
Record query_compiler (model record : Type) := QueryCompiler {
  qc_class : compiler_class;
  qc_queryset : queryset model record;
  qc_query_string : string;
  qc_fields : option (list string);
  qc_operator : option string;
  qc_order_by_relevance : bool;
  qc_partial_match : bool
}.
Arguments QueryCompiler {model record}.
Arguments qc_class {model record} q.
Arguments qc_queryset {model record} q.
Arguments qc_query_string {model record} q.
Arguments qc_fields {model record} q.
Arguments qc_operator {model record} q.
Arguments qc_order_by_relevance {model record} q.
Arguments qc_partial_match {model record} q.

(** The result objects [_search] hands back. [start] and [stop] are the
    limits of [BaseSearchResults], [0] and [None] on a fresh object. *)
Inductive search_results (model record : Type) :=
| EmptySearchResults
| MeiliSearchResults (qc : query_compiler model record)
                     (start : nat) (stop : option nat).
Arguments EmptySearchResults {model record}.
Arguments MeiliSearchResults {model record} qc start stop.

(** The class attributes of a search backend. *)
Record backend_class := BackendClass {
  query_compiler_class : option compiler_class;
  autocomplete_query_compiler_class : option compiler_class;
  has_rebuilder_class : bool;
  has_results_class : bool
}.

(** [wagtail.search.backends.base.BaseSearchBackend] sets all of them to
    [None]. *)
Definition BaseSearchBackend : backend_class :=
  BackendClass None None false false.

(** [class MeiliSearchBackend(BaseSearchBackend)]: the three attributes the
    class body assigns, the others inherited. *)
Definition MeiliSearchBackend : backend_class :=
  BackendClass (Some MeiliSearchQueryCompiler)
               (autocomplete_query_compiler_class BaseSearchBackend)
               true true.

Fixpoint string_replace_char (a b : ascii) (s : string) : string :=
  match s with
  | EmptyString => EmptyString
  | String c s' =>
      String (if Ascii.eqb c a then b else c) (string_replace_char a b s')
  end.

(** [functools.lru_cache()] keeps 128 entries. *)
Definition lru_maxsize : nat := 128.

(** [results.append(item)] for every hit of [hits] that is not [in results]. *)
Definition merge_hits (results hits : list hit) : list hit :=
  foldl (λ results item,
           if py_in item results then results else (results ++ [item])%list)
        results hits.

(* ===================================================================== *)
(** * Index Manager, Search Orchestrator, Result Materializer, Facade *)
(* ===================================================================== *)

(** [MeiliSearchModelIndex]: the attributes [__init__] sets. *)
Record model_index (model : Type) := ModelIndex {
  ix_model : model;
  ix_name : string;
  ix_index : string;          (* the uid of the remote index *)
  ix_limit : Z;
  ix_matches : string
}.
Arguments ModelIndex {model}.
Arguments ix_model {model} _.
Arguments ix_name {model} _.
Arguments ix_index {model} _.
Arguments ix_limit {model} _.
Arguments ix_matches {model} _.

(** A Django queryset that has not been evaluated yet: the rows it stands
    for, and whether Django can tell without asking the datastore that it
    holds none. *)
Record lazy_queryset (record : Type) := LazyQuerySet {
  lq_known_empty : bool;
  lq_rows : list record
}.
Arguments LazyQuerySet {record} lq_known_empty lq_rows.
Arguments lq_known_empty {record} _.
Arguments lq_rows {record} _.

(** [filter(pk__in=ids)] raises [EmptyResultSet] inside Django when [ids]
    is empty, and the limits [[start:stop]] mark the query as empty when
    they leave no room; in both cases the queryset is evaluated without a
    query to the datastore. *)
Definition known_empty (ids : list Z) (start : nat) (stop : option nat) : bool :=
  bool_decide (ids = [])
  || match stop with Some stop => (stop <=? start)%nat | None => false end.

Section Backend.
Context {model record : Type} `{EqDecision model} `{EqDecision record}.
(** [model._meta.label] *)
Variable meta_label : model → string.
(** [issubclass(a, b)] *)
Variable issubclass : model → model → bool.
(** [wagtail.search.index.class_is_indexed] *)
Variable class_is_indexed : model → bool.
(** [record.pk] *)
Variable pk : record → Z.
(** [search_query.check()]: [None] when it passes, the exception it
    raises otherwise (on a filtered queryset the check runs the
    compiler's [_process_filter]) *)
Variable check : query_compiler model record → option exn.

Variable E : env model record.

(** [MeiliSearchModelIndex._get_label] *)
Definition _get_label (m : model) : string :=
  string_replace_char "." "-" (meta_label m).

(** [MeiliSearchModelIndex._set_index]: fetching the settings raises
    when the service does not hold the uid, and the index is created. *)
Definition _set_index (m : model) : M model string :=
  let label := _get_label m in
  found ← get_settings label;
  if (found : bool)
  then _ ← emit (GetIndex label); mret label
  else _ ← create_index label; mret label.

(** [MeiliSearchModelIndex.__init__], that is
    [MeiliSearchBackend.get_index_for_model] *)
Definition get_index_for_model (m : model) : M model (model_index model) :=
  index ← _set_index m;
  mret (ModelIndex m (meta_label m) index 999999 "true").

(** [MeiliSearchModelIndex.search] *)
Definition index_search (ix : model_index model) (query : string)
  : M model (list hit) :=
  _ ← emit (IndexSearch (ix_index ix) query (ix_limit ix) (ix_matches ix));
  mret (index_hits E (ix_index ix) query).

(** The body of [get_descendant_models]. *)
Definition descendant_models (m : model) : list model :=
  List.filter (λ other_model, issubclass other_model m) (apps_get_models E).

(** [@lru_cache()] around it: a hit returns the stored list and makes the
    entry the most recent one; a miss runs the body, stores the result
    and drops the least recent entry beyond [lru_maxsize]. *)
Definition get_descendant_models (m : model) : M model (list model) := λ s,
  match List.find (λ e, bool_decide (e.1 = m)) (lru s) with
  | Some e =>
      (inr e.2,
       State (remote s) (e :: filter (λ e', e'.1 ≠ m) (lru s)) (log s))
  | None =>
      let descendants := descendant_models m in
      (inr descendants,
       State (remote s) (take lru_maxsize ((m, descendants) :: lru s)) (log s))
  end.

(** The loop [for m in models] of [_do_search]. *)
Fixpoint fan_out (models : list model) (terms : string) (results : list hit)
  : M model (list hit) :=
  match models with
  | [] => mret results
  | m :: models' =>
      index ← get_index_for_model m;
      rv ← index_search index terms;
      fan_out models' terms (merge_hits results rv)
  end.

(** From the merged hits to the rows: the rest of [_do_search]. *)
Definition sorted_results (results : list hit) : list scored_hit :=
  py_sorted score true (map set_score results).

Definition sorted_ids (results : list hit) : list Z :=
  map (λ sh, hit_id (item sh)) (sorted_results results).

Definition materialize (qc : query_compiler model record)
    (start : nat) (stop : option nat) (results : list hit) : list record :=
  let sorted_ids := sorted_ids results in
  let results :=
    if qc_order_by_relevance qc then
      let preserved_order := Case (whens sorted_ids) in
      order_by (λ r, preserved_order (pk r))
        (filter (λ r, pk r ∈ sorted_ids) (qs_rows (qc_queryset qc)))
    else
      filter (λ r, pk r ∈ sorted_ids) (qs_rows (qc_queryset qc)) in
  slice start stop (distinct results).

(** [MeiliSearchResults._do_search] *)
Definition _do_search (qc : query_compiler model record)
    (start : nat) (stop : option nat) : M model (list record) :=
  let model := qs_model (qc_queryset qc) in
  models ← get_descendant_models model;
  let terms := qc_query_string qc in
  results ← fan_out models terms [];
  mret (materialize qc start stop results).

(** [MeiliSearchResults._do_search] again, returning the queryset as the
    code does, not yet evaluated: [_do_search] above gives its rows, from
    the same calls (lemma [_do_search_queryset_run]). *)
Definition _do_search_queryset (qc : query_compiler model record)
    (start : nat) (stop : option nat) : M model (lazy_queryset record) :=
  let model := qs_model (qc_queryset qc) in
  models ← get_descendant_models model;
  let terms := qc_query_string qc in
  results ← fan_out models terms [];
  mret (LazyQuerySet (known_empty (sorted_ids results) start stop)
                     (materialize qc start stop results)).

(** [list(queryset)], [len(queryset)]: the one query to the datastore,
    unless Django knows the queryset to be empty. *)
Definition evaluate (queryset : lazy_queryset record) : M model (list record) :=
  if lq_known_empty queryset then mret (lq_rows queryset)
  else _ ← emit DatastoreQuery; mret (lq_rows queryset).

(** [MeiliSearchResults._do_count]: [len] evaluates the queryset. *)
Definition _do_count (qc : query_compiler model record)
    (start : nat) (stop : option nat) : M model nat :=
  queryset ← _do_search_queryset qc start stop;
  rows ← evaluate queryset;
  mret (length rows).

(** [BaseSearchResults.results] and [count] on a fresh object, for the
    two classes of result objects; [EmptySearchResults] holds no rows, and
    [results] of a live object is [list(self._do_search())]. *)
Definition results (r : search_results model record) : M model (list record) :=
  match r with
  | EmptySearchResults => mret []
  | MeiliSearchResults qc start stop =>
      queryset ← _do_search_queryset qc start stop;
      evaluate queryset
  end.

Definition count (r : search_results model record) : M model nat :=
  match r with
  | EmptySearchResults => mret 0%nat
  | MeiliSearchResults qc start stop => _do_count qc start stop
  end.

(** [MeiliSearchBackend._search] *)
Definition _search (query_compiler_class : option compiler_class)
    (query : string) (model_or_queryset : model_or_queryset model record)
    (fields : option (list string)) (operator : option string)
    (order_by_relevance partial_match : bool)
  : M model (search_results model record) :=
  let '(model, queryset) :=
    match model_or_queryset with
    | AQuerySet qs => (qs_model qs, qs)
    | AModel m => (m, QuerySet m (objects_all E m))
    end in
  if negb (class_is_indexed model) then mret EmptySearchResults
  else if String.eqb query "" then mret EmptySearchResults
  else
    match query_compiler_class with
    | None => raise (TypeError "'NoneType' object is not callable")
    | Some c =>
        let search_query :=
          QueryCompiler c queryset query fields operator
                        order_by_relevance partial_match in
        match check search_query with
        | Some e => raise e
        | None => mret (MeiliSearchResults search_query 0 None)
        end
    end.

(** [MeiliSearchBackend.search] *)
Definition search (self : backend_class) (query : string)
    (model_or_queryset : model_or_queryset model record)
    (fields : option (list string)) (operator : option string)
    (order_by_relevance partial_match : bool)
  : M model (search_results model record) :=
  _search (query_compiler_class self) query model_or_queryset
          fields operator order_by_relevance partial_match.

(** [MeiliSearchBackend.autocomplete]; the query compiler takes its
    default [partial_match=True]. *)
Definition autocomplete (self : backend_class) (query : string)
    (model_or_queryset : model_or_queryset model record)
    (fields : option (list string)) (operator : option string)
    (order_by_relevance : bool)
  : M model (search_results model record) :=
  match autocomplete_query_compiler_class self with
  | None =>
      raise (NotImplementedError
               "This search backend does not support the autocomplete API")
  | Some _ =>
      _search (autocomplete_query_compiler_class self) query
              model_or_queryset fields operator order_by_relevance true
  end.

(** ** Vocabulary of the statements *)

(** The list [get_descendant_models] hands back in state [s]: the
    stored one when the memo table has an entry, the body's otherwise. *)
Definition resolved_models (s : state model) (m : model) : list model :=
  match List.find (λ e, bool_decide (e.1 = m)) (lru s) with
  | Some e => e.2
  | None => descendant_models m
  end.

(** The list the memo table holds for [m] in state [s], if any. *)
Definition cached (s : state model) (m : model) : option (list model) :=
  snd <$> List.find (λ e, bool_decide (e.1 = m)) (lru s).

(** The model and the queryset [_search] works on. *)
Definition target_model (mq : model_or_queryset model record) : model :=
  match mq with AQuerySet qs => qs_model qs | AModel m => m end.

Definition target_queryset (mq : model_or_queryset model record)
  : queryset model record :=
  match mq with
  | AQuerySet qs => qs
  | AModel m => QuerySet m (objects_all E m)
  end.

(** All the hits the indexes of [models] return for [terms], in the order
    the loop sees them. *)
Definition all_hits (models : list model) (terms : string) : list hit :=
  flat_map (λ m, index_hits E (_get_label m) terms) models.

End Backend.

(** [a] stands somewhere before [b] in [l]. *)
Definition precedes {A} (a b : A) (l : list A) : Prop :=
  ∃ l1 l2 l3, l = (l1 ++ a :: l2 ++ b :: l3)%list.

(** The uids of the index searches of a log, in order. *)
Definition searched (l : list event) : list string :=
  omap (λ e, match e with IndexSearch uid _ _ _ => Some uid | _ => None end) l.

(* ===================================================================== *)
(** * A small site, for the examples *)
(* ===================================================================== *)

Module Site.

(** Models are named by their label. [home.HomePage], [home.EventPage]
    and [home.LegacyPage] subclass [wagtailcore.Page]; [LegacyPage] sets
    [search_fields = []] and so is not indexed. *)
Definition Page : string := "wagtailcore.Page".
Definition HomePage : string := "home.HomePage".
Definition EventPage : string := "home.EventPage".
Definition LegacyPage : string := "home.LegacyPage".

Definition meta_label (m : string) : string := m.

Definition issubclass (a b : string) : bool :=
  String.eqb a b
  || (String.eqb b Page
      && (String.eqb a HomePage || String.eqb a EventPage
          || String.eqb a LegacyPage)).

Definition class_is_indexed (m : string) : bool :=
  String.eqb m Page || String.eqb m HomePage || String.eqb m EventPage.

(** Rows: primary key and title. *)
Definition pk (r : Z * string) : Z := r.1.

Definition rows : list (Z * string) :=
  [(2, "About"); (1, "Welcome"); (3, "Contact")].

Definition sp (a b : Z) : span := {| span_start := a; span_length := b |}.

(** Page 1 is a [HomePage]: it sits in the index of [Page] and in the
    index of [HomePage], with the fields of each model. Page 2 is an
    [EventPage], whose documents have the fields of [Page]. Id 7 is in
    the index only. *)
Definition page_hit_1 : hit :=
  {| hit_id := 1; hit_attrs := [("title", "Welcome")]; hit_matchesInfo := [] |}.
Definition page_hit_2 : hit :=
  {| hit_id := 2; hit_attrs := [("title", "About us")];
     hit_matchesInfo := [("title", [sp 6 2])] |}.
Definition page_hit_7 : hit :=
  {| hit_id := 7; hit_attrs := [("title", "Gone with us")];
     hit_matchesInfo := [("title", [sp 10 2]); ("title_filter", [sp 10 2])] |}.
Definition home_hit_1 : hit :=
  {| hit_id := 1;
     hit_attrs := [("title", "Welcome"); ("body", "Join us, stay with us")];
     hit_matchesInfo := [("body", [sp 5 2; sp 19 2])] |}.

Definition index_hits (uid terms : string) : list hit :=
  if String.eqb terms "us" then
    if String.eqb uid "wagtailcore-Page"
    then [page_hit_1; page_hit_2; page_hit_7]
    else if String.eqb uid "home-HomePage" then [home_hit_1]
    else if String.eqb uid "home-EventPage" then [page_hit_2]
    else []
  else [].

Definition registry : list string := [Page; HomePage; EventPage; LegacyPage].

Definition E : env string (Z * string) :=
  Env registry (λ _, rows) index_hits.

(** The same site with [wagtailcore.Page] left out of the registry, as
    [apps.get_models()] leaves out a model that the settings swap for
    another one. *)
Definition E_swapped : env string (Z * string) :=
  Env [HomePage; EventPage; LegacyPage] (λ _, rows) index_hits.

(** The same site, where the indexes answer other terms as well. *)
Definition E' : env string (Z * string) :=
  Env registry (λ _, rows)
      (λ uid terms, if String.eqb terms "them" then [page_hit_2]
                    else index_hits uid terms).

Definition check (qc : query_compiler string (Z * string)) : option exn := None.

Definition s0 : state string := State ∅ [] [].


(** A full memo table: 128 models of a shop, the most recently asked for
    first, none of them a page. *)
Definition full_cache : list (string * list string) :=
  (λ n : nat, let m := "shop.Product" +:+ pretty n in (m, [m])) <$> seq 0 128.

Definition s_full : state string := State ∅ full_cache [].

Definition qc (order_by_relevance : bool) : query_compiler string (Z * string) :=
  QueryCompiler MeiliSearchQueryCompiler (QuerySet Page rows) "us"
                None None order_by_relevance true.

(** A document source: an article with a title, a field of its own
    called [id], and tags. *)
Inductive article := Article (id : Z) (title : string) (tags : list article).

Definition article_id (a : article) : Z := let 'Article i _ _ := a in i.
Definition article_title (a : article) : string := let 'Article _ t _ := a in t.
Definition article_tags (a : article) : list article := let 'Article _ _ l := a in l.

Definition get_search_fields (m : string) : list field :=
  [SearchField "title"; FilterField "title"; AutocompleteField "title";
   SearchField "id"; RelatedFields "tags" [SearchField "title"; FilterField "title"]].

Definition get_value (f : field) (a : article) : pyvalue :=
  if String.eqb (field_name f) "id" then PyStr "shadowed" else PyStr (article_title a).

Definition get_related (f : field) (a : article) : related_value article :=
  RelManager (article_tags a).

Definition column (name : string) (a : article) : pyvalue := PyStr (article_title a).

Definition hello : article :=
  Article 1 "Hello World" [Article 8 "news" []; Article 9 "misc" []].

(** A schema in which two descriptors map to one key: the filter field
    [title] and a search field named [title_filter], each with a value of
    its own. *)
Definition colliding_fields (m : string) : list field :=
  [FilterField "title"; SearchField "title_filter"].

Definition colliding_value (f : field) (a : article) : pyvalue :=
  match f with
  | FilterField _ => PyStr (article_title a)
  | _ => PyStr "set by hand"
  end.

End Site.

(* ===================================================================== *)
(** * Ingestion and index lifecycle *)
(* ===================================================================== *)

(** The calls that write to the index service. *)
Inductive write_call :=
| DeleteIndex (uid : string)          (* [index.delete()] *)
| AddDocuments (uid : string) (docs : list (gmap string docvalue))
                                      (* [index.add_documents(docs)] *)
| DeleteDocument (uid : string) (id : Z).
                                      (* [index.delete_document(id)] *)

(** One entry of the chronological record of a write path. *)
Inductive call :=
| Read (e : event)
| Write (w : write_call).

(** What a write path can end with instead of a value: an exception of
    the module, or the refusal of the service to delete an index it does
    not hold. *)
Inductive failure :=
| Raised (e : exn)
| IndexNotFound (uid : string).

(** The world of the write paths: the uids the service holds, the memo
    table, and the calls made so far. *)
Record wstate (model : Type) := WState {
  w_remote : gset string;
  w_lru : list (model * list model);
  w_calls : list call
}.
Arguments WState {model} w_remote w_lru w_calls.
Arguments w_remote {model} w.
Arguments w_lru {model} w.
Arguments w_calls {model} w.

Definition W (model A : Type) : Type :=
  wstate model → (failure + A) * wstate model.

Global Instance W_ret {model} : MRet (W model) := λ A x w, (inr x, w).

Global Instance W_bind {model} : MBind (W model) := λ A B f m w,
  match m w with
  | (inl e, w') => (inl e, w')
  | (inr x, w') => f x w'
  end.

(** A computation of [M] run inside a write path: it sees the uids and
    the memo table, and the calls it logs are recorded as reads. *)
Definition lift {model A} (m : M model A) : W model A := λ w,
  let '(r, s) := m (State (w_remote w) (w_lru w) []) in
  (match r with inl e => inl (Raised e) | inr x => inr x end,
   WState (remote s) (lru s) (w_calls w ++ (Read <$> log s))).

(** [index.delete()]: the service drops the uid, and refuses when it does
    not hold it. *)
Definition delete_index {model} (uid : string) : W model unit := λ w,
  if decide (uid ∈ w_remote w)
  then (inr (), WState (w_remote w ∖ {[ uid ]}) (w_lru w)
                       (w_calls w ++ [Write (DeleteIndex uid)]))
  else (inl (IndexNotFound uid),
        WState (w_remote w) (w_lru w) (w_calls w ++ [Write (DeleteIndex uid)])).

(** [index.add_documents(docs)] and [index.delete_document(id)]: the
    service refuses a call on an index it does not hold; [acknowledge]
    stands for its answer to a batch of documents. *)
Definition add_documents {model ack}
    (acknowledge : string → list (gmap string docvalue) → ack)
    (uid : string) (docs : list (gmap string docvalue)) : W model ack := λ w,
  (if decide (uid ∈ w_remote w) then inr (acknowledge uid docs)
   else inl (IndexNotFound uid),
   WState (w_remote w) (w_lru w) (w_calls w ++ [Write (AddDocuments uid docs)])).

Definition delete_document {model} (uid : string) (id : Z) : W model unit := λ w,
  (if decide (uid ∈ w_remote w) then inr () else inl (IndexNotFound uid),
   WState (w_remote w) (w_lru w) (w_calls w ++ [Write (DeleteDocument uid id)])).

(** The writes of a record of calls, in order. *)
Definition writes (l : list call) : list write_call :=
  omap (λ c, match c with Write w => Some w | Read _ => None end) l.

Section Ingestion.
Context {model item ack : Type}.
(** [model._meta.label] *)
Variable meta_label : model → string.
Variable get_search_fields : model → list field.
Variable item_id : item → Z.
Variable get_value : field → item → pyvalue.
Variable get_related : field → item → related_value item.
Variable column : string → item → pyvalue.
(** [type(obj)] *)
Variable type_of : item → model.
(** the answer of the service to [add_documents] *)
Variable acknowledge : string → list (gmap string docvalue) → ack.

(** [MeiliSearchModelIndex.add_item]; the answer of the service is
    dropped. *)
Definition add_item (self : model_index model) (it : item) : W model unit :=
  let doc :=
    _create_document get_search_fields item_id get_value get_related column
                     (ix_model self) it in
  rv ← add_documents acknowledge (ix_index self) [doc];
  mret ().

(** [MeiliSearchModelIndex.add_items]; the documents are built for the
    model of the index, [item_model] is not read. *)
Definition add_items (self : model_index model) (item_model : model)
    (items : list item) : W model ack :=
  let prepared :=
    foldl (λ prepared it,
             prepared
             ++ [_create_document get_search_fields item_id get_value
                   get_related column (ix_model self) it])
          [] items in
  rv ← add_documents acknowledge (ix_index self) prepared;
  mret rv.

(** [MeiliSearchModelIndex.delete_item] *)
Definition delete_item (self : model_index model) (obj : item) : W model unit :=
  delete_document (ix_index self) (item_id obj).

(** [MeiliSearchModelIndex._rebuild] *)
Definition _rebuild (self : model_index model) : W model unit :=
  _ ← delete_index (ix_index self);
  _ ← lift (_set_index meta_label (ix_model self));
  mret ().

(** [MeiliSearchRebuilder]: [__init__] and [start] *)
Record rebuilder := Rebuilder {
  rb_index : model_index model;
  rb_uid : string
}.

Definition rebuilder_init (model_index : model_index model) : rebuilder :=
  Rebuilder model_index (_get_label meta_label (ix_model model_index)).

Definition rebuilder_start (self : rebuilder) : W model (model_index model) :=
  let model := ix_model (rb_index self) in
  _ ← lift (emit (GetIndex (rb_uid self)));
  _ ← delete_index (rb_uid self);
  new_index ← lift (get_index_for_model meta_label model);
  mret new_index.

(** [MeiliSearchBackend._refresh] *)
Definition _refresh (uid : string) (m : model) : W model (model_index model) :=
  _ ← lift (emit (GetIndex uid));
  _ ← delete_index uid;
  new_index ← lift (get_index_for_model meta_label m);
  mret new_index.

(** [MeiliSearchBackend.add_type]; [add_model] does nothing. *)
Definition add_type (m : model) : W model unit :=
  index ← lift (get_index_for_model meta_label m);
  mret ().

(** [MeiliSearchBackend.add] *)
Definition backend_add (obj : item) : W model unit :=
  index ← lift (get_index_for_model meta_label (type_of obj));
  add_item index obj.

(** [MeiliSearchBackend.add_bulk]; the answer of [add_items] is dropped. *)
Definition add_bulk (m : model) (obj_list : list item) : W model unit :=
  index ← lift (get_index_for_model meta_label m);
  _ ← add_items index m obj_list;
  mret ().

(** [MeiliSearchBackend.delete] *)
Definition backend_delete (obj : item) : W model unit :=
  index ← lift (get_index_for_model meta_label (type_of obj));
  delete_item index obj.

(** The loop of [MeiliSearchBackend.refresh_index]. An index object is
    made for every model; it is a new object each time, and the class
    defines no equality, so the test [index not in refreshed_indexes]
    always passes: [refresh] (which does nothing) is called and the object
    is appended. *)
Fixpoint refresh_loop (models : list model)
    (refreshed_indexes : list (model_index model))
  : M model (list (model_index model)) :=
  match models with
  | [] => mret refreshed_indexes
  | m :: models' =>
      index ← get_index_for_model meta_label m;
      refresh_loop models' (refreshed_indexes ++ [index])
  end.

(** [MeiliSearchBackend.refresh_index], over the list
    [get_indexed_models()] returns. *)
Definition refresh_index (get_indexed_models : list model) : M model unit :=
  _ ← refresh_loop get_indexed_models [];
  mret ().

(** [MeiliSearchBackend.reset_index] *)
Definition reset_index : M model unit := raise (NotImplementedError "").

End Ingestion.

(* ===================================================================== *)
(** * Field Mapper and Document Builder: facts *)
(* ===================================================================== *)

Lemma py_update_lookup {V} (d other : gmap string V) (k : string) :
  py_update d other !! k = match other !! k with Some v => Some v | None => d !! k end.
Proof.
  unfold py_update. rewrite lookup_union.
  destruct (other !! k), (d !! k); reflexivity.
Qed.

Lemma py_dict_snoc {V} (pairs : list (string * V)) (k : string) (v : V) :
  py_dict (pairs ++ [(k, v)]) = <[k := v]> (py_dict pairs).
Proof. unfold py_dict. rewrite foldl_app. reflexivity. Qed.

(** In [dict(pairs)] the last binding of a key is the one that counts. *)
Lemma py_dict_lookup_last {V} (pairs rest : list (string * V)) k v :
  k ∉ rest.*1 → py_dict (pairs ++ (k, v) :: rest) !! k = Some v.
Proof.
  revert pairs. induction rest as [|[k' v'] rest IH] using rev_ind; intros pairs Hk.
  - rewrite py_dict_snoc. apply lookup_insert_eq.
  - rewrite fmap_app in Hk. simpl in Hk.
    rewrite app_comm_cons, app_assoc, py_dict_snoc.
    rewrite lookup_insert_ne.
    + apply IH. intros Hin. apply Hk. apply elem_of_app. by left.
    + intros ->. apply Hk. apply elem_of_app. right. by apply list_elem_of_singleton.
Qed.

Section DocumentBuilderFacts.
Context {model item : Type}.
Variable get_search_fields : model → list field.
Variable item_id : item → Z.
Variable get_value : field → item → pyvalue.
Variable get_related : field → item → related_value item.
Variable column : string → item → pyvalue.

Local Abbreviation create_document :=
  (_create_document get_search_fields item_id get_value get_related column).

(** C8. The index key of a Search field is its name, of a Filter field
    its name followed by [_filter], of an Autocomplete field its name
    followed by [_ngrams]; these are the keys the document builder emits
    for them, and for a related field it emits, per sub-field, the
    related field's name, [__], and the sub-field's mapped key. *)
Theorem index_key_derivation :
  (∀ n, _get_field_mapping (SearchField n) = n) ∧
  (∀ n, _get_field_mapping (FilterField n) = n +:+ "_filter") ∧
  (∀ n, _get_field_mapping (AutocompleteField n) = n +:+ "_ngrams") ∧
  (∀ (f : field) (it : item),
     (_get_document_fields_of get_value get_related column f it).*1 =
     match f with
     | RelatedFields name sub_fields =>
         match get_related f it with
         | RelOther => []
         | _ => map (λ sub, name +:+ "__" +:+ _get_field_mapping sub) sub_fields
         end
     | _ => [_get_field_mapping f]
     end).
Proof.
  repeat split; try reflexivity.
  intros f it. unfold _get_document_fields_of.
  destruct f as [n|n|n|n subs]; try reflexivity.
  simpl. destruct (get_related _ it); simpl; try reflexivity.
  - rewrite <- list_fmap_compose. reflexivity.
  - rewrite <- list_fmap_compose. reflexivity.
Qed.

(** C7. The document built for an object always binds [id] to the
    object's [id]: the document is the dict of the pairs emitted from the
    schema's field descriptors with [id] set on top of it, so that a pair
    emitted under the key [id] is overridden. *)
Theorem create_document_id (m : model) (it : item) :
  _create_document get_search_fields item_id get_value get_related column m it
    !! "id"
  = Some (DocInt (item_id it))
  ∧ _create_document get_search_fields item_id get_value get_related column m it
    = <["id" := DocInt (item_id it)]>
        (py_dict (map (λ kv, (kv.1, DocStr kv.2))
                    (_get_document_fields get_search_fields get_value
                       get_related column m it))).
Proof.
  split.
  - unfold _create_document.
    rewrite !py_update_lookup, lookup_singleton_eq. reflexivity.
  - apply map_eq. intros k. unfold _create_document.
    rewrite !py_update_lookup, lookup_empty.
    destruct (decide (k = "id")) as [->|Hk].
    + by rewrite lookup_singleton_eq, lookup_insert_eq.
    + rewrite lookup_singleton_ne, lookup_insert_ne by congruence.
      by destruct (_ !! k).
Qed.

(** Every other key keeps what the field descriptors emitted for it. *)
Lemma create_document_other (m : model) (it : item) (k : string) :
  k ≠ "id" →
  create_document m it !! k =
  py_dict (map (λ kv, (kv.1, DocStr kv.2))
             (_get_document_fields get_search_fields get_value get_related column m it)) !! k.
Proof.
  intros Hk. unfold _create_document.
  rewrite !py_update_lookup, lookup_singleton_ne, lookup_empty by congruence.
  by destruct (_ !! k).
Qed.

End DocumentBuilderFacts.

(** The schema of the example emits a field of its own under [id]; the
    document holds the primary key there. *)
Example create_document_shadowed_id :
  In ("id", "shadowed")
     (_get_document_fields Site.get_search_fields Site.get_value
        Site.get_related Site.column Site.Page Site.hello)
  ∧ _create_document Site.get_search_fields Site.article_id Site.get_value
      Site.get_related Site.column Site.Page Site.hello !! "id"
    = Some (DocInt 1).
Proof. split; [vm_compute; tauto | vm_compute; reflexivity]. Qed.

Example document_keys_of_example :
  (_get_document_fields Site.get_search_fields Site.get_value
     Site.get_related Site.column Site.Page Site.hello).*1
  = ["title"; "title_filter"; "title_ngrams"; "id";
     "tags__title"; "tags__title_filter"].
Proof. reflexivity. Qed.

(** [prepare_value] on a string gives the string back, and the empty list
    of a related collection prepares to the empty string. *)
Lemma prepare_value_str (s : string) : prepare_value (PyStr s) = s.
Proof.
  unfold prepare_value, py_truthy.
  destruct (String.eqb_spec s ""); subst; reflexivity.
Qed.

Lemma prepare_value_empty_list : prepare_value (PyList []) = "".
Proof. reflexivity. Qed.

(* ===================================================================== *)
(** * Backend Facade: facts *)
(* ===================================================================== *)

Section FacadeFacts.
Context {model record : Type} `{EqDecision model} `{EqDecision record}.
Variable meta_label : model → string.
Variable issubclass : model → model → bool.
Variable class_is_indexed : model → bool.
Variable pk : record → Z.
Variable check : query_compiler model record → option exn.
Variable E : env model record.

Local Abbreviation autocomplete' := (autocomplete class_is_indexed check E).

(** C9. [autocomplete] of [MeiliSearchBackend] raises the "not
    implemented" exception for every query and type, and leaves the
    world (remote indexes, log) as it was. *)
Theorem autocomplete_not_implemented
    (query : string) (mq : model_or_queryset model record)
    (fields : option (list string)) (operator : option string)
    (order_by_relevance : bool) (s : state model) :
  autocomplete class_is_indexed check E
               MeiliSearchBackend query mq fields operator order_by_relevance s
  = (inl (NotImplementedError
            "This search backend does not support the autocomplete API"), s).
Proof. reflexivity. Qed.

(** A backend class that does configure an autocomplete compiler goes on
    to [_search]. *)
Lemma autocomplete_configured (self : backend_class) c query mq fields operator obr :
  autocomplete_query_compiler_class self = Some c →
  autocomplete' self query mq fields operator obr
  = _search class_is_indexed check E (Some c) query mq fields operator obr true.
Proof. intros Hc. unfold autocomplete. rewrite Hc. reflexivity. Qed.

End FacadeFacts.

(* ===================================================================== *)
(** * The stable sort *)
(* ===================================================================== *)

Section StableSort.
Context {A : Type} (before : A → A → bool).

Lemma stable_insert_perm x l : stable_insert before x l ≡ₚ x :: l.
Proof.
  induction l as [|y l IH]; simpl; [done|].
  destruct (before x y); [done|].
  rewrite IH. apply Permutation_swap.
Qed.

Lemma stable_sort_perm l : stable_sort before l ≡ₚ l.
Proof.
  induction l as [|x l IH]; simpl; [done|].
  rewrite stable_insert_perm. by f_equiv.
Qed.

Lemma stable_sort_elem_of x l : x ∈ stable_sort before l ↔ x ∈ l.
Proof. by rewrite stable_sort_perm. Qed.

Hypothesis before_total : ∀ x y, before x y = false → before y x = true.
Hypothesis before_trans :
  ∀ x y z, before x y = true → before y z = true → before x z = true.

Lemma stable_insert_sorted x l :
  StronglySorted (λ a b, before a b = true) l →
  StronglySorted (λ a b, before a b = true) (stable_insert before x l).
Proof.
  induction 1 as [|y l Hl IH Hy]; simpl.
  - repeat constructor.
  - destruct (before x y) eqn:Hxy.
    + constructor; [by constructor|].
      constructor; [done|].
      eapply Forall_impl; [exact Hy|]. intros z Hz. by eapply before_trans.
    + constructor; [done|].
      rewrite stable_insert_perm. constructor; [|done].
      by apply before_total.
Qed.

Lemma stable_sort_sorted l :
  StronglySorted (λ a b, before a b = true) (stable_sort before l).
Proof.
  induction l as [|x l IH]; simpl; [constructor|].
  by apply stable_insert_sorted.
Qed.

End StableSort.

Section Stability.
Context {A : Type} (before : A → A → bool).
(** A class of elements that may all stand before each other. *)
Context (P : A → Prop) `{∀ x, Decision (P x)}.
Hypothesis P_before : ∀ x y, P x → P y → before x y = true.

Lemma stable_insert_filter x l :
  filter P (stable_insert before x l) = filter P (x :: l).
Proof.
  induction l as [|y l IH]; simpl; [done|].
  destruct (before x y) eqn:Hxy; [done|].
  rewrite filter_cons, IH, !filter_cons.
  destruct (decide (P y)) as [Hy|Hy]; [|done].
  destruct (decide (P x)) as [Hx|Hx]; [|done].
  rewrite P_before in Hxy by done. discriminate.
Qed.

(** The sort keeps the elements of such a class in the order they had. *)
Lemma stable_sort_filter l : filter P (stable_sort before l) = filter P l.
Proof.
  induction l as [|x l IH]; simpl; [done|].
  rewrite stable_insert_filter, !filter_cons, IH. done.
Qed.

End Stability.

Lemma StronglySorted_weaken {A} (R1 R2 : relation A) (l : list A) :
  (∀ a b, R1 a b → R2 a b) → StronglySorted R1 l → StronglySorted R2 l.
Proof.
  intros Himp. induction 1 as [|x l Hl IH Hx]; constructor; [done|].
  eapply Forall_impl; [exact Hx|]. intros b. apply Himp.
Qed.

Section PySorted.
Context {A : Type} (key : A → nat).

Lemma py_sorted_perm reverse l : py_sorted key reverse l ≡ₚ l.
Proof. apply stable_sort_perm. Qed.

Lemma py_sorted_descending l :
  StronglySorted (λ a b, key b ≤ key a)%nat (py_sorted key true l).
Proof.
  unfold py_sorted.
  eapply StronglySorted_weaken; [|apply stable_sort_sorted].
  - intros a b Hab. simpl in Hab. by apply Nat.leb_le.
  - intros x y Hxy. apply Nat.leb_le. apply Nat.leb_gt in Hxy. lia.
  - intros x y z Hxy Hyz. apply Nat.leb_le.
    apply Nat.leb_le in Hxy, Hyz. lia.
Qed.

Lemma py_sorted_ascending l :
  StronglySorted (λ a b, key a ≤ key b)%nat (py_sorted key false l).
Proof.
  unfold py_sorted.
  eapply StronglySorted_weaken; [|apply stable_sort_sorted].
  - intros a b Hab. simpl in Hab. by apply Nat.leb_le.
  - intros x y Hxy. apply Nat.leb_le. apply Nat.leb_gt in Hxy. lia.
  - intros x y z Hxy Hyz. apply Nat.leb_le.
    apply Nat.leb_le in Hxy, Hyz. lia.
Qed.

(** Elements of equal key keep their order, also with [reverse=True]. *)
Lemma py_sorted_stable reverse (k : nat) l :
  filter (λ x, key x = k) (py_sorted key reverse l)
  = filter (λ x, key x = k) l.
Proof.
  unfold py_sorted. apply stable_sort_filter.
  intros x y -> ->. destruct reverse; by apply Nat.leb_le.
Qed.

(** A descending list is determined by the order of the elements of each
    key: whatever stable sort Python runs, its result is this one. *)
Lemma stable_descending_unique l1 l2 :
  StronglySorted (λ a b, key b ≤ key a)%nat l1 →
  StronglySorted (λ a b, key b ≤ key a)%nat l2 →
  (∀ k : nat, filter (λ x, key x = k) l1 = filter (λ x, key x = k) l2) →
  l1 = l2.
Proof.
  intros Hs1. revert l2. induction Hs1 as [|x l1 Hs1 IH Hx]; intros l2 Hs2 Hf.
  - destruct l2 as [|y l2]; [done|].
    specialize (Hf (key y)). by rewrite filter_cons_True in Hf.
  - destruct Hs2 as [|y l2 Hs2 Hy].
    { specialize (Hf (key x)). by rewrite filter_cons_True in Hf. }
    assert (key x = key y) as Hk.
    { apply Nat.le_antisymm.
      - assert (x ∈ filter (λ z, key z = key x) (y :: l2)) as Hin.
        { rewrite <- Hf, filter_cons_True by done. by left. }
        apply list_elem_of_filter in Hin as [_ Hin].
        apply elem_of_cons in Hin as [->|Hin]; [done|].
        rewrite Forall_forall in Hy. by apply Hy.
      - assert (y ∈ filter (λ z, key z = key y) (x :: l1)) as Hin.
        { rewrite Hf, filter_cons_True by done. by left. }
        apply list_elem_of_filter in Hin as [_ Hin].
        apply elem_of_cons in Hin as [->|Hin]; [done|].
        rewrite Forall_forall in Hx. by apply Hx. }
    pose proof (Hf (key x)) as Hfx.
    rewrite filter_cons_True in Hfx by done.
    rewrite (filter_cons_True _ y) in Hfx by done.
    injection Hfx as -> Hfx. f_equal. apply IH; [done|].
    intros k. destruct (decide (key y = k)) as [<-|Hne]; [done|].
    specialize (Hf k). by rewrite !filter_cons_False in Hf.
Qed.

Lemma py_sorted_unique l l' :
  StronglySorted (λ a b, key b ≤ key a)%nat l' →
  (∀ k : nat, filter (λ x, key x = k) l' = filter (λ x, key x = k) l) →
  l' = py_sorted key true l.
Proof.
  intros Hs Hf. apply stable_descending_unique; [done|apply py_sorted_descending|].
  intros k. by rewrite Hf, py_sorted_stable.
Qed.

End PySorted.

(* ===================================================================== *)
(** * Order of a list: precedence, sublists, distinct rows, windows *)
(* ===================================================================== *)

Section ListOrder.
Context {A : Type}.
Implicit Types l : list A.

Lemma precedes_sublist_pair (a b : A) l : precedes a b l ↔ [a; b] `sublist_of` l.
Proof.
  unfold precedes. rewrite sublist_cons_l. split.
  - intros (l1 & l2 & l3 & ->). exists l1, (l2 ++ b :: l3). split; [done|].
    apply sublist_inserts_l. apply sublist_skip, sublist_nil_l.
  - intros (k1 & k2 & -> & Hb).
    apply sublist_cons_l in Hb as (k3 & k4 & -> & _). by exists k1, k3, k4.
Qed.

Lemma precedes_mono (a b : A) l1 l2 :
  l1 `sublist_of` l2 → precedes a b l1 → precedes a b l2.
Proof. rewrite !precedes_sublist_pair. intros ??. by etrans. Qed.

Lemma StronglySorted_sublist (R : relation A) l1 l2 :
  l1 `sublist_of` l2 → StronglySorted R l2 → StronglySorted R l1.
Proof.
  induction 1 as [|x l1 l2 Hsub IH|x l1 l2 Hsub IH]; intros Hs.
  - constructor.
  - apply StronglySorted_cons in Hs as [Hx Hs]. constructor; [auto|].
    rewrite Forall_forall in Hx |- *. intros y Hy. apply Hx.
    by eapply sublist_subseteq.
  - apply StronglySorted_cons in Hs as [_ Hs]. auto.
Qed.

(** In a sorted list, [a] stands before every [b] that may not stand
    before [a]. *)
Lemma StronglySorted_precedes (R : relation A) l (a b : A) :
  StronglySorted R l → a ∈ l → b ∈ l → a ≠ b → ¬ R b a → precedes a b l.
Proof.
  intros Hs Ha Hb Hne Hnot.
  apply list_elem_of_split in Ha as (l1 & l2 & ->).
  apply StronglySorted_app in Hs as (H12 & _ & Hs2).
  apply StronglySorted_cons in Hs2 as [Ha2 _].
  apply elem_of_app in Hb as [Hb|Hb].
  - destruct Hnot. apply H12; [done|]. by left.
  - apply elem_of_cons in Hb as [->|Hb]; [done|].
    apply list_elem_of_split in Hb as (l3 & l4 & ->).
    by exists l1, l3, l4.
Qed.

Lemma StronglySorted_lookup_lt (R : relation A) l i j (a b : A) :
  StronglySorted R l → l !! i = Some a → l !! j = Some b → (i < j)%nat → R a b.
Proof.
  intros Hs. revert i j. induction Hs as [|x l Hs IH Hx]; intros i j Hi Hj Hlt.
  - by rewrite lookup_nil in Hi.
  - destruct j as [|j]; [lia|]. simpl in Hj. destruct i as [|i].
    + simpl in Hi. injection Hi as ->.
      rewrite Forall_forall in Hx. apply Hx. by eapply list_elem_of_lookup_2.
    + simpl in Hi. eapply IH; eauto. lia.
Qed.

Lemma slice_sublist start stop l : slice start stop l `sublist_of` l.
Proof.
  unfold slice. destruct stop as [e|].
  - etrans; [apply sublist_take|apply sublist_drop].
  - apply sublist_drop.
Qed.

Lemma slice_all l : slice 0 None l = l.
Proof. reflexivity. Qed.

Lemma slice_length start stop l :
  length (slice start stop l)
  = match stop with
    | None => (length l - start)%nat
    | Some e => ((e - start) `min` (length l - start))%nat
    end.
Proof.
  unfold slice. destruct stop as [e|].
  - by rewrite length_take, length_drop.
  - by rewrite length_drop.
Qed.

Context `{EqDecision A}.

Lemma distinct_sublist l : distinct l `sublist_of` l.
Proof.
  induction l as [|x l IH]; simpl; [done|].
  apply sublist_skip. etrans; [apply sublist_filter|done].
Qed.

Lemma distinct_elem_of (x : A) l : x ∈ distinct l ↔ x ∈ l.
Proof.
  induction l as [|y l IH]; simpl; [done|].
  rewrite !elem_of_cons, list_elem_of_filter, IH.
  destruct (decide (x = y)); tauto.
Qed.

Lemma distinct_NoDup l : NoDup (distinct l).
Proof.
  induction l as [|x l IH]; simpl; [constructor|].
  constructor.
  - rewrite list_elem_of_filter. intros [Hne _]. by apply Hne.
  - by apply NoDup_filter.
Qed.

End ListOrder.

(* ===================================================================== *)
(** * The preserved order *)
(* ===================================================================== *)

Lemma Case_whens_from (n : nat) (ids : list Z) (k : Z) :
  snd <$> List.find (λ w, bool_decide (w.1 = k)) (imap (λ pos pk, (pk, (n + pos)%nat)) ids)
  = (λ p, (n + p.1)%nat) <$> list_find (λ x, x = k) ids.
Proof.
  revert n. induction ids as [|x ids IH]; intros n; [done|].
  rewrite imap_cons. cbn [List.find list_find fst].
  destruct (decide (x = k)) as [->|Hne].
  - rewrite bool_decide_eq_true_2 by done. done.
  - rewrite bool_decide_eq_false_2 by done.
    rewrite (imap_ext _ (λ pos pk, (pk, (S n + pos)%nat))).
    2: { intros i y _. simpl. f_equal. lia. }
    rewrite IH. destruct (list_find _ ids) as [[i y]|]; simpl; [|done].
    f_equal. lia.
Qed.

(** The value of the [Case] on a primary key is the place of its first
    occurrence in the ids. *)
Lemma Case_whens (ids : list Z) (k : Z) :
  Case (whens ids) k = fst <$> list_find (λ x, x = k) ids.
Proof.
  unfold Case, whens.
  rewrite (imap_ext _ (λ pos pk, (pk, (0 + pos)%nat))) by done.
  rewrite Case_whens_from. by destruct (list_find _ ids) as [[??]|].
Qed.

Lemma Case_whens_Some (ids : list Z) (k : Z) (i : nat) :
  Case (whens ids) k = Some i ↔
  ids !! i = Some k ∧ ∀ j, (j < i)%nat → ids !! j ≠ Some k.
Proof.
  rewrite Case_whens. split.
  - intros Hf. destruct (list_find _ ids) as [[i' x]|] eqn:Hfind; [|done].
    simpl in Hf. injection Hf as ->.
    apply list_find_Some in Hfind as (Hi & -> & Hlt).
    split; [done|]. intros j Hj Hjk. by eapply Hlt.
  - intros [Hi Hlt].
    assert (list_find (λ x, x = k) ids = Some (i, k)) as ->; [|done].
    apply list_find_Some. split_and!; [done..|].
    intros j y Hj Hji ->. by eapply Hlt.
Qed.

Lemma Case_whens_is_Some (ids : list Z) (k : Z) :
  k ∈ ids → is_Some (Case (whens ids) k).
Proof.
  intros Hk. rewrite Case_whens.
  destruct (list_find_elem_of (λ x, x = k) ids k Hk eq_refl) as [[i x] ->].
  by eexists.
Qed.

Lemma null_last_leb_total a b : null_last_leb a b = false → null_last_leb b a = true.
Proof.
  destruct a, b; simpl; try done.
  intros Hab. apply Nat.leb_le. apply Nat.leb_gt in Hab. lia.
Qed.

Lemma null_last_leb_trans a b c :
  null_last_leb a b = true → null_last_leb b c = true → null_last_leb a c = true.
Proof.
  destruct a, b, c; simpl; try done.
  rewrite !Nat.leb_le. lia.
Qed.

Lemma order_by_sorted {A} (expr : A → option nat) (rows : list A) :
  StronglySorted (λ a b, null_last_leb (expr a) (expr b) = true) (order_by expr rows).
Proof.
  apply (stable_sort_sorted (λ x y, null_last_leb (expr x) (expr y))).
  - intros x y. apply null_last_leb_total.
  - intros x y z. apply null_last_leb_trans.
Qed.

Lemma order_by_perm {A} (expr : A → option nat) (rows : list A) :
  order_by expr rows ≡ₚ rows.
Proof. apply stable_sort_perm. Qed.

(* ===================================================================== *)
(** * Merging the hits *)
(* ===================================================================== *)

Lemma py_in_true (h : hit) (results : list hit) :
  py_in h results = true ↔ hit_key h ∈ hit_key <$> results.
Proof.
  unfold py_in. rewrite existsb_exists, list_elem_of_fmap. split.
  - intros (r & Hr & Heq). apply bool_decide_eq_true in Heq.
    exists r. split; [by symmetry|]. by apply list_elem_of_In.
  - intros (r & Heq & Hr). exists r. split; [by apply list_elem_of_In|].
    apply bool_decide_eq_true. by symmetry.
Qed.

Lemma py_in_false (h : hit) (results : list hit) :
  py_in h results = false ↔ hit_key h ∉ hit_key <$> results.
Proof.
  rewrite <- py_in_true. destruct (py_in h results); split; try done.
Qed.

Lemma merge_hits_nil results : merge_hits results [] = results.
Proof. reflexivity. Qed.

Lemma merge_hits_cons results h hits :
  merge_hits results (h :: hits)
  = merge_hits (if py_in h results then results else results ++ [h]) hits.
Proof. reflexivity. Qed.

Lemma merge_hits_app results hits1 hits2 :
  merge_hits results (hits1 ++ hits2) = merge_hits (merge_hits results hits1) hits2.
Proof. unfold merge_hits. apply foldl_app. Qed.

(** The loop only appends, and what it appends is a part of the hits it
    was fed, in their order. *)
Lemma merge_hits_kept results hits :
  ∃ kept, merge_hits results hits = results ++ kept ∧ kept `sublist_of` hits.
Proof.
  revert results. induction hits as [|h hits IH]; intros results.
  - exists []. by rewrite app_nil_r.
  - rewrite merge_hits_cons. destruct (py_in h results).
    + destruct (IH results) as (kept & -> & Hsub).
      exists kept. split; [done|]. by apply sublist_cons.
    + destruct (IH (results ++ [h])) as (kept & -> & Hsub).
      exists (h :: kept). split; [by rewrite <- app_assoc|]. by apply sublist_skip.
Qed.

Lemma merge_hits_NoDup results hits :
  NoDup (hit_key <$> results) → NoDup (hit_key <$> merge_hits results hits).
Proof.
  revert results. induction hits as [|h hits IH]; intros results Hnd; [done|].
  rewrite merge_hits_cons. destruct (py_in h results) eqn:Hin; [by apply IH|].
  apply IH. rewrite fmap_app. apply NoDup_app. split_and!; [done| |].
  - intros k Hk Hk'. apply list_elem_of_singleton in Hk'. subst k.
    by apply py_in_false in Hin.
  - apply NoDup_singleton.
Qed.

(** Every hit, kept or not, has an equal one in the merged list. *)
Lemma merge_hits_covers_key results hits k :
  k ∈ hit_key <$> (results ++ hits) → k ∈ hit_key <$> merge_hits results hits.
Proof.
  revert results. induction hits as [|h' hits IH]; intros results Hk.
  - by rewrite app_nil_r in Hk.
  - rewrite merge_hits_cons. apply IH.
    rewrite fmap_app, fmap_cons in Hk. rewrite fmap_app.
    apply elem_of_app in Hk as [Hk|Hk]; [|apply elem_of_cons in Hk as [->|Hk]].
    + apply elem_of_app. left.
      destruct (py_in h' results); [done|]. rewrite fmap_app.
      apply elem_of_app. by left.
    + apply elem_of_app. left. destruct (py_in h' results) eqn:Hin.
      * by apply py_in_true.
      * rewrite fmap_app. apply elem_of_app. right. by apply list_elem_of_singleton.
    + apply elem_of_app. by right.
Qed.

Lemma merge_hits_covers results hits h :
  h ∈ results ++ hits → ∃ h', h' ∈ merge_hits results hits ∧ py_eq h' h.
Proof.
  intros Hh.
  assert (hit_key h ∈ hit_key <$> merge_hits results hits) as Hk.
  { apply merge_hits_covers_key. by apply list_elem_of_fmap_2. }
  apply list_elem_of_fmap in Hk as (h' & Heq & Hin). by exists h'.
Qed.

(** The first of several equal hits is the one that stays. *)
Lemma merge_hits_first results l1 h l2 :
  hit_key h ∉ hit_key <$> (results ++ l1) → h ∈ merge_hits results (l1 ++ h :: l2).
Proof.
  intros Hfresh. rewrite merge_hits_app, merge_hits_cons.
  destruct (merge_hits_kept results l1) as (kept & Hm & Hsub).
  assert (py_in h (merge_hits results l1) = false) as ->.
  { apply py_in_false. rewrite Hm. intros Hk. apply Hfresh.
    rewrite fmap_app in Hk |- *. apply elem_of_app in Hk as [Hk|Hk].
    - apply elem_of_app. by left.
    - apply elem_of_app. right.
      apply list_elem_of_fmap in Hk as (x & -> & Hx).
      apply list_elem_of_fmap_2. by eapply sublist_subseteq. }
  destruct (merge_hits_kept (merge_hits results l1 ++ [h]) l2) as (kept' & -> & _).
  apply elem_of_app. left. apply elem_of_app. right. by apply list_elem_of_singleton.
Qed.

(* ===================================================================== *)
(** * Running the fan-out *)
(* ===================================================================== *)

Lemma bind_run {model A B} (m : M model A) (f : A → M model B) s x s' :
  m s = (inr x, s') → (m ≫= f) s = f x s'.
Proof. intros Hm. unfold mbind, M_bind. by rewrite Hm. Qed.

Lemma bind_emit {model B} (e : event) (f : unit → M model B) (s : state model) :
  (emit e ≫= f) s = f () (State (remote s) (lru s) (log s ++ [e])).
Proof. reflexivity. Qed.

Lemma ret_run {model A} (x : A) (s : state model) : mret (M := M model) x s = (inr x, s).
Proof. reflexivity. Qed.

Lemma searched_app l1 l2 : searched (l1 ++ l2) = searched l1 ++ searched l2.
Proof. unfold searched. apply omap_app. Qed.

Section FanOutFacts.
Context {model record : Type} `{EqDecision model} `{EqDecision record}.
Variable meta_label : model → string.
Variable issubclass : model → model → bool.
Variable pk : record → Z.
Variable E : env model record.

Local Abbreviation label_of := (_get_label meta_label).
Local Abbreviation fan_out' := (fan_out meta_label E).
Local Abbreviation all_hits' := (all_hits meta_label E).
Local Abbreviation descendants := (get_descendant_models issubclass E).
Local Abbreviation do_search := (_do_search meta_label issubclass pk E).
Local Abbreviation do_count := (_do_count meta_label issubclass pk E).

(** Getting the index of a model always succeeds, searches nothing and
    leaves the memo table alone. *)
Lemma get_index_for_model_run (m : model) (s : state model) :
  ∃ s', get_index_for_model meta_label m s
        = (inr (ModelIndex m (meta_label m) (label_of m) 999999 "true"), s')
        ∧ lru s' = lru s ∧ searched (log s') = searched (log s).
Proof.
  unfold get_index_for_model, _set_index, mbind, M_bind, get_settings. simpl.
  destruct (bool_decide _); simpl; eexists; split; try reflexivity; simpl;
    rewrite !searched_app, !app_nil_r; done.
Qed.

Lemma index_search_run (ix : model_index model) (query : string) (s : state model) :
  index_search E ix query s
  = (inr (index_hits E (ix_index ix) query),
     State (remote s) (lru s)
           (log s ++ [IndexSearch (ix_index ix) query (ix_limit ix) (ix_matches ix)])).
Proof. reflexivity. Qed.

(** The loop over the models always returns: the merge of all the hits,
    one index search per model, in order. *)
Lemma fan_out_run (models : list model) (terms : string)
    (results : list hit) (s : state model) :
  ∃ s', fan_out' models terms results s
        = (inr (merge_hits results (all_hits' models terms)), s')
        ∧ lru s' = lru s
        ∧ searched (log s') = searched (log s) ++ map label_of models.
Proof.
  revert results s. induction models as [|m models IH]; intros results s.
  - exists s. simpl. by rewrite app_nil_r.
  - destruct (get_index_for_model_run m s) as (s1 & Hrun & Hlru & Hlog).
    simpl. rewrite (bind_run _ _ _ _ _ Hrun). cbv beta.
    rewrite (bind_run _ _ _ _ _ (index_search_run _ _ _)). simpl.
    edestruct IH as (s' & -> & Hlru' & Hlog').
    exists s'. split; [by rewrite merge_hits_app|].
    split; [by rewrite Hlru'|].
    rewrite Hlog'. simpl. rewrite searched_app, Hlog. simpl.
    by rewrite <- app_assoc.
Qed.

Lemma get_descendant_models_run (m : model) (s : state model) :
  ∃ s', descendants m s = (inr (resolved_models issubclass E s m), s')
        ∧ log s' = log s.
Proof.
  unfold get_descendant_models, resolved_models.
  destruct (List.find _ (lru s)); eexists; split; reflexivity.
Qed.

(** [_do_search] always returns: the rows materialized from the merge of
    the hits of the resolved models. *)
Lemma _do_search_run (qc : query_compiler model record)
    (start : nat) (stop : option nat) (s : state model) :
  let models := resolved_models issubclass E s (qs_model (qc_queryset qc)) in
  ∃ s', do_search qc start stop s
        = (inr (materialize pk qc start stop
                  (merge_hits [] (all_hits' models (qc_query_string qc)))), s')
        ∧ searched (log s') = searched (log s) ++ map label_of models.
Proof.
  intros models. unfold _do_search.
  destruct (get_descendant_models_run (qs_model (qc_queryset qc)) s)
    as (s1 & Hrun & Hlog).
  rewrite (bind_run _ _ _ _ _ Hrun).
  destruct (fan_out_run (resolved_models issubclass E s (qs_model (qc_queryset qc)))
              (qc_query_string qc) [] s1) as (s2 & Hfan & _ & Hlog2).
  rewrite (bind_run _ _ _ _ _ Hfan).
  exists s2. split; [reflexivity|]. by rewrite Hlog2, Hlog.
Qed.

(** The same runs with the calls they add to the log: none of them
    asks the datastore. *)
Lemma get_index_for_model_calls (m : model) (s : state model) :
  ∃ s' calls,
    get_index_for_model meta_label m s
    = (inr (ModelIndex m (meta_label m) (label_of m) 999999 "true"), s')
    ∧ lru s' = lru s ∧ log s' = log s ++ calls
    ∧ searched calls = [] ∧ DatastoreQuery ∉ calls.
Proof.
  unfold get_index_for_model, _set_index, mbind, M_bind, get_settings. simpl.
  destruct (bool_decide _); simpl.
  - eexists _, [GetSettings (label_of m); GetIndex (label_of m)].
    split_and!; try reflexivity.
    + simpl. by rewrite <- app_assoc.
    + intros Hin. apply list_elem_of_In in Hin. simpl in Hin.
      intuition discriminate.
  - eexists _, [GetSettings (label_of m); CreateIndex (label_of m)].
    split_and!; try reflexivity.
    + simpl. by rewrite <- app_assoc.
    + intros Hin. apply list_elem_of_In in Hin. simpl in Hin.
      intuition discriminate.
Qed.

Lemma fan_out_calls (models : list model) (terms : string)
    (results : list hit) (s : state model) :
  ∃ s' calls,
    fan_out' models terms results s
    = (inr (merge_hits results (all_hits' models terms)), s')
    ∧ lru s' = lru s ∧ log s' = log s ++ calls
    ∧ searched calls = map label_of models ∧ DatastoreQuery ∉ calls.
Proof.
  revert results s. induction models as [|m models IH]; intros results s.
  - exists s, []. simpl. rewrite !app_nil_r. split_and!; try done.
    apply not_elem_of_nil.
  - destruct (get_index_for_model_calls m s)
      as (s1 & calls1 & Hrun & Hlru & Hlog & Hs1 & Hd1).
    simpl. rewrite (bind_run _ _ _ _ _ Hrun). cbv beta.
    rewrite (bind_run _ _ _ _ _ (index_search_run _ _ _)). simpl.
    edestruct IH as (s' & calls & -> & Hlru' & Hlog' & Hs' & Hd').
    exists s', (calls1 ++ IndexSearch (label_of m) terms 999999 "true" :: calls).
    split_and!.
    + by rewrite merge_hits_app.
    + by rewrite Hlru'.
    + rewrite Hlog'. simpl. rewrite Hlog. by rewrite <- !app_assoc.
    + rewrite searched_app, Hs1. simpl. by rewrite Hs'.
    + intros [Hin|Hin]%elem_of_app; [done|].
      apply elem_of_cons in Hin as [Hin|Hin]; [discriminate|done].
Qed.

(** [_do_search] builds the queryset of the rows it returns: the queryset
    is known to be empty when no hit was merged or the limits leave no
    room, and on the way every resolved model's index is called, the
    datastore is not. *)
Lemma _do_search_queryset_run (qc : query_compiler model record)
    (start : nat) (stop : option nat) (s : state model) :
  let models := resolved_models issubclass E s (qs_model (qc_queryset qc)) in
  let merged := merge_hits [] (all_hits' models (qc_query_string qc)) in
  ∃ s' calls,
    _do_search_queryset meta_label issubclass pk E qc start stop s
    = (inr (LazyQuerySet (known_empty (sorted_ids merged) start stop)
                         (materialize pk qc start stop merged)), s')
    ∧ do_search qc start stop s = (inr (materialize pk qc start stop merged), s')
    ∧ log s' = log s ++ calls
    ∧ searched calls = map label_of models ∧ DatastoreQuery ∉ calls.
Proof.
  intros models merged. unfold _do_search_queryset, _do_search.
  destruct (get_descendant_models_run (qs_model (qc_queryset qc)) s)
    as (s1 & Hrun & Hlog).
  rewrite !(bind_run _ _ _ _ _ Hrun).
  destruct (fan_out_calls models (qc_query_string qc) [] s1)
    as (s2 & calls & Hfan & _ & Hlog2 & Hs & Hd).
  rewrite !(bind_run _ _ _ _ _ Hfan).
  exists s2, calls. split_and!; try done. by rewrite Hlog2, Hlog.
Qed.

Lemma evaluate_run (queryset : lazy_queryset record) (s : state model) :
  evaluate queryset s
  = (inr (lq_rows queryset),
     State (remote s) (lru s)
           (log s ++ if lq_known_empty queryset then [] else [DatastoreQuery])).
Proof.
  unfold evaluate. destruct (lq_known_empty queryset).
  - rewrite app_nil_r. by destruct s.
  - reflexivity.
Qed.

(** A sort keeps the number of hits: no id is left when, and only when,
    no hit was merged. *)
Lemma sorted_ids_nil (merged : list hit) : sorted_ids merged = [] ↔ merged = [].
Proof.
  unfold sorted_ids, sorted_results. split; [|by intros ->].
  intros Hnil. apply (f_equal length) in Hnil.
  rewrite length_map in Hnil.
  rewrite (Permutation_length (py_sorted_perm _ _ _)), length_map in Hnil.
  by destruct merged.
Qed.

Lemma known_empty_fresh (merged : list hit) :
  known_empty (sorted_ids merged) 0 None = bool_decide (merged = []).
Proof.
  unfold known_empty. rewrite orb_false_r.
  apply bool_decide_ext, sorted_ids_nil.
Qed.

(** Reading a live result object: the rows of [_do_search], the calls of
    the fan-out, then the one query to the datastore unless the queryset
    is known to be empty. *)
Lemma results_run (qc : query_compiler model record)
    (start : nat) (stop : option nat) (s : state model) :
  let models := resolved_models issubclass E s (qs_model (qc_queryset qc)) in
  let merged := merge_hits [] (all_hits' models (qc_query_string qc)) in
  ∃ s' calls,
    results meta_label issubclass pk E (MeiliSearchResults qc start stop) s
    = (inr (materialize pk qc start stop merged), s')
    ∧ (do_search qc start stop s).1 = inr (materialize pk qc start stop merged)
    ∧ log s' = log s ++ calls
                 ++ (if known_empty (sorted_ids merged) start stop
                     then [] else [DatastoreQuery])
    ∧ searched calls = map label_of models ∧ DatastoreQuery ∉ calls.
Proof.
  intros models merged. unfold results.
  destruct (_do_search_queryset_run qc start stop s)
    as (s1 & calls & Hrun & Hrows & Hlog & Hs & Hd).
  rewrite (bind_run _ _ _ _ _ Hrun), evaluate_run. simpl.
  eexists _, calls. split_and!; try done.
  - by rewrite Hrows.
  - simpl. fold models. fold merged. by rewrite Hlog, <- app_assoc.
Qed.

Lemma _do_count_run (qc : query_compiler model record)
    (start : nat) (stop : option nat) (s : state model) :
  let models := resolved_models issubclass E s (qs_model (qc_queryset qc)) in
  (do_count qc start stop s).1
  = inr (length (materialize pk qc start stop
                   (merge_hits [] (all_hits' models (qc_query_string qc))))).
Proof.
  intros models. unfold _do_count.
  destruct (_do_search_queryset_run qc start stop s)
    as (s' & calls & Hrun & _).
  rewrite (bind_run _ _ _ _ _ Hrun).
  rewrite (bind_run _ _ _ _ _ (evaluate_run _ _)). reflexivity.
Qed.

End FanOutFacts.

(* ===================================================================== *)
(** * Search Orchestrator: merge, score, sort *)
(* ===================================================================== *)

Section OrchestratorFacts.
Context {model record : Type}.
Variable meta_label : model → string.
Variable E : env model record.

Local Abbreviation all_hits' := (all_hits meta_label E).

(** C1, as the code has it. The fan-out over the models always returns
    a merged list in which no two hits are equal as Python objects (same
    id, same attributes, same match metadata): a hit equal to one
    already in the list is skipped. The list keeps the order in which
    the hits were seen, every hit seen has an equal one in it, and of
    several equal hits the first one seen is the one kept. Hits that only
    share their id are all kept. *)
Theorem merged_hits_pairwise_distinct
    (models : list model) (terms : string) (s : state model) :
  ∃ merged,
    (fan_out meta_label E models terms [] s).1 = inr merged
    ∧ (∀ i j h1 h2, merged !! i = Some h1 → merged !! j = Some h2 →
                    py_eq h1 h2 → i = j)
    ∧ merged `sublist_of` all_hits meta_label E models terms
    ∧ (∀ h, h ∈ all_hits meta_label E models terms →
            ∃ h', h' ∈ merged ∧ py_eq h' h)
    ∧ (∀ l1 h l2, all_hits meta_label E models terms = l1 ++ h :: l2 →
                  (∀ x, x ∈ l1 → ¬ py_eq x h) → h ∈ merged).
Proof.
  destruct (fan_out_run meta_label E models terms [] s) as (s' & Hrun & _).
  exists (merge_hits [] (all_hits' models terms)).
  split; [by rewrite Hrun|]. split_and!.
  - intros i j h1 h2 Hi Hj Heq.
    assert (NoDup (hit_key <$> merge_hits [] (all_hits' models terms))) as Hnd
      by (apply merge_hits_NoDup; constructor).
    eapply NoDup_lookup; [exact Hnd| |].
    + rewrite list_lookup_fmap, Hi. reflexivity.
    + rewrite list_lookup_fmap, Hj. simpl. by rewrite Heq.
  - destruct (merge_hits_kept [] (all_hits' models terms)) as (kept & -> & Hsub).
    done.
  - intros h Hh. by apply merge_hits_covers.
  - intros l1 h l2 -> Hfirst. apply merge_hits_first. simpl.
    intros Hk. apply list_elem_of_fmap in Hk as (x & Heq & Hx).
    by apply (Hfirst x).
Qed.

End OrchestratorFacts.

(** On the example site page 1 is found in the index of [Page] and in the
    index of [HomePage]; the two hits differ in their attributes and match
    metadata, so both stay in the merged list, with the same id. The equal
    hit of page 2 from the index of [EventPage] is dropped. *)
Lemma merged_hits_share_an_id :
  resolved_models Site.issubclass Site.E Site.s0 Site.Page = Site.registry
  ∧ (fan_out Site.meta_label Site.E Site.registry "us" [] Site.s0).1
    = inr [Site.page_hit_1; Site.page_hit_2; Site.page_hit_7; Site.home_hit_1]
  ∧ hit_id Site.page_hit_1 = hit_id Site.home_hit_1
  ∧ ¬ NoDup (hit_id <$>
               [Site.page_hit_1; Site.page_hit_2; Site.page_hit_7; Site.home_hit_1]).
Proof.
  split_and!; [reflexivity|vm_compute; reflexivity|reflexivity|].
  intros Hnd. apply NoDup_cons in Hnd as [Hnotin _]. apply Hnotin.
  apply list_elem_of_In. simpl. right. right. left. reflexivity.
Qed.

(** The example of the source's comment scores 386. *)
Example score_of_docstring_example :
  score (set_score
    {| hit_id := 45014; hit_attrs := [];
       hit_matchesInfo :=
         [("title_filter", [Site.sp 0 6]); ("title", [Site.sp 0 6]);
          ("excerpt", [Site.sp 20 6]); ("title_ngrams", [Site.sp 0 6]);
          ("body", [Site.sp 66 6; Site.sp 846 6; Site.sp 1888 6; Site.sp 2250 6;
                    Site.sp 2262 6; Site.sp 2678 6; Site.sp 3307 6])] |})
  = 386%nat.
Proof. vm_compute. reflexivity. Qed.

(** C3. Every hit of the merged list is scored with the length of the
    textual rendering of its match metadata; the scored hits are the
    merged hits, each once, in descending order of score, and hits of
    equal score stand in the order they had in the merged list. *)
Theorem scoring_and_stable_order (results : list hit) :
  let scored := map set_score results in
  let sorted := sorted_results results in
  (∀ sh, sh ∈ sorted →
         item sh ∈ results
         ∧ score sh = String.length (py_str_matches (hit_matchesInfo (item sh))))
  ∧ sorted ≡ₚ scored
  ∧ StronglySorted (λ a b, score b ≤ score a)%nat sorted
  ∧ (∀ n : nat, filter (λ sh, score sh = n) sorted
                = filter (λ sh, score sh = n) scored).
Proof.
  intros scored sorted. split_and!.
  - intros sh Hsh. unfold sorted, sorted_results in Hsh.
    rewrite py_sorted_perm in Hsh.
    apply list_elem_of_fmap in Hsh as (h & -> & Hh). done.
  - apply py_sorted_perm.
  - apply py_sorted_descending.
  - intros n. apply py_sorted_stable.
Qed.

Example sorted_results_of_example :
  map (λ sh, (hit_id (item sh), score sh))
      (sorted_results [Site.page_hit_1; Site.page_hit_2; Site.page_hit_7; Site.home_hit_1])
  = [(7, 85%nat); (1, 65%nat); (2, 38%nat); (1, 2%nat)].
Proof. vm_compute. reflexivity. Qed.

(** Ties: two hits with metadata of equal length keep their merge order. *)
Example sorted_results_tie :
  let a := {| hit_id := 5; hit_attrs := []; hit_matchesInfo := [("body", [Site.sp 0 2])] |} in
  let b := {| hit_id := 4; hit_attrs := []; hit_matchesInfo := [("name", [Site.sp 3 2])] |} in
  map (λ sh, hit_id (item sh)) (sorted_results [a; Site.page_hit_7; b]) = [7; 5; 4]
  ∧ map (λ sh, hit_id (item sh)) (sorted_results [b; Site.page_hit_7; a]) = [7; 4; 5].
Proof. split; vm_compute; reflexivity. Qed.

(* ===================================================================== *)
(** * Result Materializer *)
(* ===================================================================== *)

Section MaterializerFacts.
Context {model record : Type} `{EqDecision record}.
Variable pk : record → Z.

Local Abbreviation materialize' := (materialize (model := model) pk).

Lemma materialize_window (qc : query_compiler model record) start stop results :
  materialize' qc start stop results
  = slice start stop (materialize' qc 0 None results).
Proof. reflexivity. Qed.

(** Every row of the output is a row of the queryset whose primary key
    is the id of some hit. *)
Lemma materialize_elem_of (qc : query_compiler model record) start stop results r :
  r ∈ materialize' qc start stop results →
  r ∈ qs_rows (qc_queryset qc) ∧ ∃ h, h ∈ results ∧ hit_id h = pk r.
Proof.
  intros Hr. unfold materialize in Hr.
  apply (sublist_subseteq _ _ (slice_sublist _ _ _)) in Hr.
  rewrite distinct_elem_of in Hr.
  assert (r ∈ filter (λ r, pk r ∈ sorted_ids results) (qs_rows (qc_queryset qc)))
    as Hf.
  { revert Hr. destruct (qc_order_by_relevance qc); [|done].
    by rewrite order_by_perm. }
  apply list_elem_of_filter in Hf as [Hpk Hrow]. split; [done|].
  unfold sorted_ids in Hpk. apply list_elem_of_fmap in Hpk as (sh & Hid & Hsh).
  unfold sorted_results in Hsh. rewrite py_sorted_perm in Hsh.
  apply list_elem_of_fmap in Hsh as (h & -> & Hh). by exists h.
Qed.

(** The place of a hit in the score order bounds the place of the first
    occurrence of its id. *)
Lemma sorted_ids_lookup results i :
  sorted_ids results !! i = (λ sh, hit_id (item sh)) <$> sorted_results results !! i.
Proof. unfold sorted_ids. apply list_lookup_fmap. Qed.

Lemma sorted_results_elem_of results sh :
  sh ∈ sorted_results results → ∃ h, h ∈ results ∧ sh = set_score h.
Proof.
  unfold sorted_results. rewrite py_sorted_perm.
  intros (h & -> & Hh)%list_elem_of_fmap. by exists h.
Qed.

(** With [order_by_relevance], a row that has a hit scoring above every
    hit of another row stands before that row. *)
Lemma materialize_relevance_order (qc : query_compiler model record)
    start stop results (a b : record) (ha : hit) :
  qc_order_by_relevance qc = true →
  a ∈ materialize' qc start stop results →
  b ∈ materialize' qc start stop results →
  ha ∈ results → hit_id ha = pk a →
  (∀ hb, hb ∈ results → hit_id hb = pk b →
         (score (set_score hb) < score (set_score ha))%nat) →
  precedes a b (materialize' qc start stop results).
Proof.
  intros Hrel Ha Hb Hha Hida Hbest.
  set (ids := sorted_ids results).
  set (key := λ r : record, Case (whens ids) (pk r)).
  set (R := λ x y : record, null_last_leb (key x) (key y) = true).
  assert (materialize' qc start stop results
          `sublist_of` order_by key
             (filter (λ r, pk r ∈ ids) (qs_rows (qc_queryset qc)))) as Hsub.
  { unfold materialize. rewrite Hrel.
    etrans; [apply slice_sublist|apply distinct_sublist]. }
  assert (StronglySorted R (materialize' qc start stop results)) as Hsorted.
  { eapply StronglySorted_sublist; [exact Hsub|]. apply order_by_sorted. }
  (* the place of [ha] in the score order *)
  assert (set_score ha ∈ sorted_results results) as Hsa.
  { unfold sorted_results. rewrite py_sorted_perm. by apply list_elem_of_fmap_2. }
  apply list_elem_of_lookup in Hsa as [ia Hia].
  assert (ids !! ia = Some (pk a)) as Hida'.
  { unfold ids. rewrite sorted_ids_lookup, Hia. simpl. by rewrite Hida. }
  (* the first places of the two primary keys *)
  destruct (Case_whens_is_Some ids (pk a)) as [i Hi];
    [by eapply list_elem_of_lookup_2|].
  assert (pk b ∈ ids) as Hbin.
  { apply (sublist_subseteq _ _ Hsub) in Hb. rewrite order_by_perm in Hb.
    by apply list_elem_of_filter in Hb as [? _]. }
  destruct (Case_whens_is_Some ids (pk b) Hbin) as [j Hj].
  pose proof Hi as Hi'. pose proof Hj as Hj'.
  apply Case_whens_Some in Hi' as [_ Hmin].
  apply Case_whens_Some in Hj' as [Hjb _].
  assert (i ≤ ia)%nat as Hle.
  { destruct (decide (i ≤ ia)%nat); [done|]. exfalso. apply (Hmin ia); [lia|done]. }
  (* the hit at place [j] is a hit of [b] *)
  unfold ids in Hjb. rewrite sorted_ids_lookup in Hjb.
  destruct (sorted_results results !! j) as [shb|] eqn:Hshb; [|done].
  simpl in Hjb. injection Hjb as Hidb.
  destruct (sorted_results_elem_of results shb) as (hb & Hhb & ->);
    [by eapply list_elem_of_lookup_2|].
  specialize (Hbest hb Hhb Hidb).
  assert (ia < j)%nat as Hlt.
  { destruct (lt_eq_lt_dec ia j) as [[?| ->]|Hgt]; [done| |].
    - rewrite Hia in Hshb.
      assert (set_score ha = set_score hb) as Heq by congruence.
      rewrite Heq in Hbest. exfalso. by apply Nat.lt_irrefl in Hbest.
    - pose proof (StronglySorted_lookup_lt _ _ _ _ _ _
                    (py_sorted_descending score (map set_score results))
                    Hshb Hia Hgt) as Hdesc.
      exfalso. apply Nat.lt_nge in Hbest. by apply Hbest. }
  apply (StronglySorted_precedes R); [done..| |].
  - intros ->. rewrite Hi in Hj. injection Hj as ->. lia.
  - unfold R, key. rewrite Hi, Hj. simpl.
    intros Hji. apply Nat.leb_le in Hji. lia.
Qed.

(** Without it, the rows stand as in the queryset. *)
Lemma materialize_default_order (qc : query_compiler model record)
    start stop results (a b : record) :
  qc_order_by_relevance qc = false →
  precedes a b (materialize' qc start stop results) →
  precedes a b (qs_rows (qc_queryset qc)).
Proof.
  intros Hrel. apply precedes_mono. unfold materialize. rewrite Hrel.
  etrans; [apply slice_sublist|].
  etrans; [apply distinct_sublist|]. apply sublist_filter.
Qed.

Lemma NoDup_fmap_elem_eq {B C} (f : B → C) (l : list B) (x y : B) :
  NoDup (f <$> l) → x ∈ l → y ∈ l → f x = f y → x = y.
Proof.
  intros Hnd Hx Hy Hxy.
  apply list_elem_of_lookup in Hx as [i Hi]. apply list_elem_of_lookup in Hy as [j Hj].
  assert (i = j) as ->; [|congruence].
  eapply NoDup_lookup; [exact Hnd| |].
  - by rewrite list_lookup_fmap, Hi.
  - rewrite list_lookup_fmap, Hj. simpl. by rewrite Hxy.
Qed.

(** When every id has a single hit in the merged list, the score of a row
    is the score of its hit, and the higher score stands first. *)
Corollary materialize_relevance_order_unique_ids
    (qc : query_compiler model record) start stop results (a b : record)
    (ha hb : hit) :
  qc_order_by_relevance qc = true →
  NoDup (hit_id <$> results) →
  a ∈ materialize pk qc start stop results →
  b ∈ materialize pk qc start stop results →
  ha ∈ results → hit_id ha = pk a →
  hb ∈ results → hit_id hb = pk b →
  (score (set_score hb) < score (set_score ha))%nat →
  precedes a b (materialize pk qc start stop results).
Proof.
  intros Hrel Hnd Ha Hb Hha Hida Hhb Hidb Hlt.
  apply (materialize_relevance_order qc start stop results a b ha); try done.
  intros hb' Hhb' Hidb'.
  assert (hb' = hb) as ->; [|done].
  eapply NoDup_fmap_elem_eq; [exact Hnd|done..|congruence].
Qed.

End MaterializerFacts.

(* ===================================================================== *)
(** * The pipeline of [_do_search] *)
(* ===================================================================== *)

Section PipelineFacts.
Context {model record : Type} `{EqDecision model} `{EqDecision record}.
Variable meta_label : model → string.
Variable issubclass : model → model → bool.
Variable pk : record → Z.

Local Abbreviation label_of := (_get_label meta_label).
Local Abbreviation resolved := (resolved_models (record := record) issubclass).

(** The merged hit list of a search in state [s]. *)
Local Abbreviation merged_of E qc s :=
  (merge_hits []
     (all_hits meta_label E (resolved E s (qs_model (qc_queryset qc)))
               (qc_query_string qc))).


(** C4, as the code has it. [_do_search] always returns. Every row of
    the output is a row of the queryset whose primary key is the id of a
    merged hit, so an id of the scored set that the datastore does not
    hold has no row in the output, and raises nothing. With
    [order_by_relevance], row [a] stands before row [b] whenever some
    hit of [a] scores above every hit of [b]; a row can have several
    hits, and its best one places it. Without [order_by_relevance] the
    rows stand in the order of the queryset. *)
Theorem relevance_order_of_output (E : env model record)
    (qc : query_compiler model record) (start : nat) (stop : option nat)
    (s : state model) :
  ∃ out,
    (_do_search meta_label issubclass pk E qc start stop s).1 = inr out
    ∧ (∀ r, r ∈ out →
            r ∈ qs_rows (qc_queryset qc)
            ∧ ∃ h, h ∈ merged_of E qc s ∧ hit_id h = pk r)
    ∧ (∀ h, h ∈ merged_of E qc s →
            (∀ r, r ∈ qs_rows (qc_queryset qc) → pk r ≠ hit_id h) →
            ∀ r, r ∈ out → pk r ≠ hit_id h)
    ∧ (qc_order_by_relevance qc = true →
       ∀ a b ha, a ∈ out → b ∈ out →
         ha ∈ merged_of E qc s → hit_id ha = pk a →
         (∀ hb, hb ∈ merged_of E qc s → hit_id hb = pk b →
                (score (set_score hb) < score (set_score ha))%nat) →
         precedes a b out)
    ∧ (qc_order_by_relevance qc = false →
       ∀ a b, precedes a b out → precedes a b (qs_rows (qc_queryset qc))).
Proof.
  destruct (_do_search_run meta_label issubclass pk E qc start stop s)
    as (s' & Hrun & _).
  eexists. split; [by rewrite Hrun|]. split_and!.
  - intros r Hr. by eapply materialize_elem_of.
  - intros h Hh Hstale r Hr.
    apply materialize_elem_of in Hr as [Hrow _]. by apply Hstale.
  - intros Hrel a b ha Ha Hb Hha Hida Hbest.
    by eapply materialize_relevance_order.
  - intros Hrel a b. by apply materialize_default_order.
Qed.

(** C5, as the code has it. [_do_count] is the length of what
    [_do_search] returns for the limits of the result object, that is of
    the window [start:stop] of the full materialized sequence; it is the
    length of the full sequence when the limits are the initial ones. *)
Theorem count_is_length_of_window (E : env model record)
    (qc : query_compiler model record) (start : nat) (stop : option nat)
    (s : state model) :
  ∃ full,
    (_do_search meta_label issubclass pk E qc 0 None s).1 = inr full
    ∧ (_do_search meta_label issubclass pk E qc start stop s).1
      = inr (slice start stop full)
    ∧ (_do_count meta_label issubclass pk E qc start stop s).1
      = inr (length (slice start stop full))
    ∧ length (slice start stop full)
      = match stop with
        | None => (length full - start)%nat
        | Some e => ((e - start) `min` (length full - start))%nat
        end
    ∧ (_do_count meta_label issubclass pk E qc 0 None s).1 = inr (length full).
Proof.
  destruct (_do_search_run meta_label issubclass pk E qc 0 None s)
    as (s1 & Hrun1 & _).
  destruct (_do_search_run meta_label issubclass pk E qc start stop s)
    as (s2 & Hrun2 & _).
  eexists. split; [by rewrite Hrun1|]. split_and!.
  - rewrite Hrun2. simpl. by rewrite materialize_window.
  - rewrite _do_count_run. by rewrite materialize_window.
  - apply slice_length.
  - by rewrite _do_count_run.
Qed.

End PipelineFacts.

(* ===================================================================== *)
(** * The example site, run *)
(* ===================================================================== *)

Lemma not_precedes_swapped {A} (x y : A) : x ≠ y → ¬ precedes y x [x; y].
Proof.
  intros Hne (l1 & l2 & l3 & Heq).
  destruct l1 as [|a [|b l1]]; simpl in Heq.
  - injection Heq as Heq _. by apply Hne.
  - apply (f_equal length) in Heq. simpl in Heq.
    rewrite length_app in Heq. simpl in Heq. lia.
  - apply (f_equal length) in Heq. simpl in Heq.
    rewrite !length_app in Heq. simpl in Heq. lia.
Qed.

(** On the example site the row of page 2 has a hit of score 38 and the
    row of page 1 has a hit of score 2 (its hit from the index of [Page]),
    and still page 1 stands first: its hit from the index of [HomePage]
    scores 65. *)
Lemma relevance_order_any_hit_counterexample :
  (_do_search Site.meta_label Site.issubclass Site.pk Site.E (Site.qc true)
              0 None Site.s0).1
  = inr [(1, "Welcome"); (2, "About")]
  ∧ merge_hits [] (all_hits Site.meta_label Site.E
                     (resolved_models Site.issubclass Site.E Site.s0 Site.Page) "us")
    = [Site.page_hit_1; Site.page_hit_2; Site.page_hit_7; Site.home_hit_1]
  ∧ hit_id Site.page_hit_2 = Site.pk (2, "About")
  ∧ hit_id Site.page_hit_1 = Site.pk (1, "Welcome")
  ∧ (score (set_score Site.page_hit_1) < score (set_score Site.page_hit_2))%nat
  ∧ ¬ precedes (2, "About") (1, "Welcome") [(1, "Welcome"); (2, "About")].
Proof.
  split_and!; try (vm_compute; reflexivity).
  - vm_compute. lia.
  - by apply not_precedes_swapped.
Qed.

(** Id 7 has the best score and no row in the datastore: the output
    starts with the next one. *)
Example stale_id_is_dropped :
  sorted_ids [Site.page_hit_1; Site.page_hit_2; Site.page_hit_7; Site.home_hit_1]
  = [7; 1; 2; 1]
  ∧ materialize (model := string) Site.pk (Site.qc true) 0 None
      [Site.page_hit_1; Site.page_hit_2; Site.page_hit_7; Site.home_hit_1]
    = [(1, "Welcome"); (2, "About")]
  ∧ materialize (model := string) Site.pk (Site.qc false) 0 None
      [Site.page_hit_1; Site.page_hit_2; Site.page_hit_7; Site.home_hit_1]
    = [(2, "About"); (1, "Welcome")].
Proof. split_and!; vm_compute; reflexivity. Qed.

(** On the example site the full sequence has two rows, and the count of
    the result object limited to [0:1] is 1. *)
Lemma count_follows_window_counterexample :
  (_do_search Site.meta_label Site.issubclass Site.pk Site.E (Site.qc true)
              0 None Site.s0).1
  = inr [(1, "Welcome"); (2, "About")]
  ∧ (_do_count Site.meta_label Site.issubclass Site.pk Site.E (Site.qc true)
               0 (Some 1%nat) Site.s0).1
    = inr 1%nat
  ∧ (_do_count Site.meta_label Site.issubclass Site.pk Site.E (Site.qc true)
               1 None Site.s0).1
    = inr 1%nat
  ∧ (_do_count Site.meta_label Site.issubclass Site.pk Site.E (Site.qc true)
               0 None Site.s0).1
    = inr 2%nat.
Proof. split_and!; vm_compute; reflexivity. Qed.

(** ** The theorems at the example site *)

Lemma merged_hits_pairwise_distinct_witness :
  ∃ h', h' ∈ [Site.page_hit_1; Site.page_hit_2; Site.page_hit_7; Site.home_hit_1]
        ∧ py_eq h' Site.page_hit_2.
Proof.
  destruct (merged_hits_pairwise_distinct Site.meta_label Site.E
              Site.registry "us" Site.s0)
    as (merged & Hrun & _ & _ & Hcovers & _).
  vm_compute in Hrun. injection Hrun as <-.
  apply Hcovers. apply list_elem_of_In. vm_compute. tauto.
Defined.

Lemma scoring_and_stable_order_witness :
  score (set_score Site.home_hit_1)
  = String.length (py_str_matches (hit_matchesInfo Site.home_hit_1)).
Proof.
  destruct (scoring_and_stable_order
              [Site.page_hit_1; Site.page_hit_2; Site.page_hit_7; Site.home_hit_1])
    as (Hscore & _).
  apply (Hscore (set_score Site.home_hit_1)).
  apply list_elem_of_In. vm_compute. tauto.
Defined.

Lemma relevance_order_of_output_witness :
  precedes (1, "Welcome") (2, "About") [(1, "Welcome"); (2, "About")].
Proof.
  destruct (relevance_order_of_output Site.meta_label Site.issubclass Site.pk
              Site.E (Site.qc true) 0 None Site.s0)
    as (out & Hrun & _ & _ & Hrel & _).
  vm_compute in Hrun. injection Hrun as <-.
  apply (Hrel eq_refl (1, "Welcome") (2, "About") Site.home_hit_1).
  - apply list_elem_of_In. simpl. tauto.
  - apply list_elem_of_In. simpl. tauto.
  - apply list_elem_of_In. vm_compute. tauto.
  - reflexivity.
  - intros hb Hhb Hid. apply list_elem_of_In in Hhb. vm_compute in Hhb.
    destruct Hhb as [<-|[<-|[<-|[<-|[]]]]]; try discriminate Hid.
    vm_compute. lia.
Defined.

(* ===================================================================== *)
(** * Index Manager: labels and get-or-create *)
(* ===================================================================== *)

Lemma string_replace_char_length (a b : ascii) (s : string) :
  String.length (string_replace_char a b s) = String.length s.
Proof. induction s as [|c s IH]; simpl; [done|]. by rewrite IH. Qed.

Lemma string_replace_char_mem (a b : ascii) (s : string) :
  a ≠ b → string_mem a (string_replace_char a b s) = false.
Proof.
  intros Hab. induction s as [|c s IH]; simpl; [done|].
  rewrite IH, orb_false_r.
  destruct (Ascii.eqb_spec c a) as [->|Hc]; by apply Ascii.eqb_neq.
Qed.

Lemma string_replace_char_inj (a b : ascii) (s1 s2 : string) :
  string_mem b s1 = false → string_mem b s2 = false →
  string_replace_char a b s1 = string_replace_char a b s2 → s1 = s2.
Proof.
  revert s2. induction s1 as [|c1 s1 IH]; intros [|c2 s2]; simpl; try done.
  intros [Hc1 Hs1]%orb_false_elim [Hc2 Hs2]%orb_false_elim Heq.
  injection Heq as Hc Hs. f_equal; [|by apply IH].
  apply Ascii.eqb_neq in Hc1, Hc2.
  destruct (Ascii.eqb_spec c1 a) as [->|H1], (Ascii.eqb_spec c2 a) as [->|H2];
    congruence.
Qed.

Section IndexManagerFacts.
Context {model : Type}.
Variable meta_label : model → string.

(** X1. The uid of a model's index never holds a dot, and has the length
    of the model's label. *)
Theorem get_label_no_dot (m : model) :
  string_mem "." (_get_label meta_label m) = false
  ∧ String.length (_get_label meta_label m) = String.length (meta_label m).
Proof.
  unfold _get_label. split.
  - by apply string_replace_char_mem.
  - apply string_replace_char_length.
Qed.

(** X2. Two models whose labels hold no dash get the same uid only when
    they have the same label. *)
Theorem get_label_inj (m1 m2 : model) :
  string_mem "-" (meta_label m1) = false →
  string_mem "-" (meta_label m2) = false →
  _get_label meta_label m1 = _get_label meta_label m2 →
  meta_label m1 = meta_label m2.
Proof. unfold _get_label. apply string_replace_char_inj. Qed.

Lemma _set_index_run (m : model) (s : state model) :
  let uid := _get_label meta_label m in
  let r := _set_index meta_label m s in
  r.1 = inr uid
  ∧ remote r.2 = {[ uid ]} ∪ remote s
  ∧ lru r.2 = lru s
  ∧ log r.2
    = log s ++ [GetSettings uid;
                if bool_decide (uid ∈ remote s) then GetIndex uid
                else CreateIndex uid].
Proof.
  intros uid r. unfold r, _set_index, mbind, M_bind, get_settings. simpl.
  fold uid. destruct (bool_decide_reflect (uid ∈ remote s)) as [Hin|Hout]; simpl.
  - split_and!; try done.
    + apply set_eq. intros x. rewrite elem_of_union, elem_of_singleton.
      split; [by right|]. by intros [->|?].
    + by rewrite <- app_assoc.
  - split_and!; try done. by rewrite <- app_assoc.
Qed.

(** X3. [_set_index] always returns the uid of the model. Afterwards the
    service holds the uid and every uid it held; the memo table is
    untouched; two calls were made: the settings were fetched, and the
    index was fetched when the service held the uid, created otherwise. *)
Theorem set_index_get_or_create (m : model) (s : state model) :
  let uid := _get_label meta_label m in
  let r := _set_index meta_label m s in
  r.1 = inr uid
  ∧ remote r.2 = {[ uid ]} ∪ remote s
  ∧ lru r.2 = lru s
  ∧ log r.2
    = log s ++ [GetSettings uid;
                if bool_decide (uid ∈ remote s) then GetIndex uid
                else CreateIndex uid].
Proof. apply _set_index_run. Qed.

(** X4. Get-or-create is idempotent: a second [_set_index] for the same
    model finds the index, creates nothing and leaves the set of uids as
    the first call left it. *)
Theorem set_index_twice (m : model) (s : state model) :
  let uid := _get_label meta_label m in
  let s1 := (_set_index meta_label m s).2 in
  _set_index meta_label m s1
  = (inr uid,
     State (remote s1) (lru s1) (log s1 ++ [GetSettings uid; GetIndex uid])).
Proof.
  intros uid s1.
  destruct (_set_index_run m s) as (_ & Hremote & _ & _).
  fold s1 in Hremote.
  unfold _set_index, mbind, M_bind, get_settings. simpl. fold uid.
  rewrite bool_decide_eq_true_2.
  - simpl. by rewrite <- app_assoc.
  - rewrite Hremote. apply elem_of_union. left. by apply elem_of_singleton.
Qed.

End IndexManagerFacts.

(** Labels with dashes can collide. *)
Example get_label_collision :
  _get_label (λ m : string, m) "shop.order-line" = _get_label (λ m : string, m) "shop-order.line".
Proof. reflexivity. Qed.

Lemma get_label_inj_witness :
  Site.meta_label Site.Page = Site.meta_label "wagtailcore.Page".
Proof.
  apply (get_label_inj Site.meta_label Site.Page "wagtailcore.Page");
    reflexivity.
Defined.

(* ===================================================================== *)
(** * Field Mapper and Document Builder: further facts *)
(* ===================================================================== *)

Lemma string_length_app (s1 s2 : string) :
  String.length (s1 +:+ s2) = (String.length s1 + String.length s2)%nat.
Proof. induction s1 as [|c s1 IH]; simpl; [done|]. by rewrite IH. Qed.

Lemma string_app_inj_r (s1 s2 t : string) : s1 +:+ t = s2 +:+ t → s1 = s2.
Proof.
  revert s2. induction s1 as [|c1 s1 IH]; intros [|c2 s2] Heq; simpl in Heq.
  - done.
  - apply (f_equal String.length) in Heq.
    rewrite !string_length_app in Heq. simpl in Heq. lia.
  - apply (f_equal String.length) in Heq.
    rewrite !string_length_app in Heq. simpl in Heq. lia.
  - injection Heq as -> Heq. f_equal. by apply IH.
Qed.

(** X5. Two fields of the same kind have the same index key only when
    they have the same name. *)
Theorem get_field_mapping_inj_per_kind (n1 n2 : string) :
  (_get_field_mapping (SearchField n1) = _get_field_mapping (SearchField n2) → n1 = n2)
  ∧ (_get_field_mapping (FilterField n1) = _get_field_mapping (FilterField n2) → n1 = n2)
  ∧ (_get_field_mapping (AutocompleteField n1)
     = _get_field_mapping (AutocompleteField n2) → n1 = n2).
Proof.
  split_and!; simpl; [done| |]; apply string_app_inj_r.
Qed.

(** Across kinds the keys can collide. *)
Example get_field_mapping_collision :
  _get_field_mapping (SearchField "title_filter") = _get_field_mapping (FilterField "title").
Proof. reflexivity. Qed.

Lemma get_field_mapping_inj_per_kind_witness : "title" = "title".
Proof.
  destruct (get_field_mapping_inj_per_kind "title" "title") as (_ & Hfilter & _).
  apply Hfilter. reflexivity.
Defined.

(** X6. [prepare_value] hands every string back as it is, the empty one
    too; so preparing a prepared value changes nothing. *)
Theorem prepare_value_idempotent :
  (∀ s : string, prepare_value (PyStr s) = s)
  ∧ (∀ v : pyvalue, prepare_value (PyStr (prepare_value v)) = prepare_value v).
Proof.
  split.
  - intros s. unfold prepare_value, py_truthy.
    destruct (String.eqb_spec s ""); subst; reflexivity.
  - intros v. apply prepare_value_str.
Qed.

(** X7. A list prepares to its prepared items joined by a comma and a
    space, the empty list to the empty string; a dict prepares as the
    list of its values, its keys playing no part. *)
Theorem prepare_value_collections :
  (∀ items, prepare_value (PyList items) = py_join ", " (map prepare_value items))
  ∧ (∀ entries, prepare_value (PyDict entries) = prepare_value (PyList (map snd entries))).
Proof.
  split.
  - intros [|v items]; reflexivity.
  - intros [|[k v] entries]; [reflexivity|].
    simpl. by rewrite map_map.
Qed.

Lemma py_dict_dom {V} (pairs : list (string * V)) :
  dom (py_dict pairs) = list_to_set pairs.*1.
Proof.
  induction pairs as [|[k v] pairs IH] using rev_ind.
  { unfold py_dict. simpl. by rewrite dom_empty_L. }
  rewrite py_dict_snoc, dom_insert_L, IH, fmap_app, list_to_set_app_L. simpl.
  rewrite union_empty_r_L. apply (comm_L (∪)).
Qed.

Lemma create_document_id_eq {model item : Type}
    (get_search_fields : model → list field) (item_id : item → Z)
    (get_value : field → item → pyvalue)
    (get_related : field → item → related_value item)
    (column : string → item → pyvalue) (m : model) (it : item) :
  _create_document get_search_fields item_id get_value get_related column m it
  = <["id" := DocInt (item_id it)]>
      (py_dict (map (λ kv, (kv.1, DocStr kv.2))
                  (_get_document_fields get_search_fields get_value
                     get_related column m it))).
Proof.
  apply map_eq. intros k. unfold _create_document.
  rewrite !py_update_lookup, lookup_empty.
  destruct (decide (k = "id")) as [->|Hk].
  - by rewrite lookup_singleton_eq, lookup_insert_eq.
  - rewrite lookup_singleton_ne, lookup_insert_ne by congruence.
    by destruct (_ !! k).
Qed.

Section DocumentBuilderMoreFacts.
Context {model item : Type}.
Variable get_search_fields : model → list field.
Variable item_id : item → Z.
Variable get_value : field → item → pyvalue.
Variable get_related : field → item → related_value item.
Variable column : string → item → pyvalue.

(** X8. A related field that resolves to an empty collection still
    yields one entry per sub-field, each with the empty string; one that
    resolves to neither a collection nor an object yields no entry. *)
Theorem related_field_edge_values (name : string) (sub_fields : list field)
    (it : item) :
  (get_related (RelatedFields name sub_fields) it = RelManager [] →
   _get_document_fields_of get_value get_related column
     (RelatedFields name sub_fields) it
   = map (λ sub, (related_key name (_get_field_mapping sub), "")) sub_fields)
  ∧ (get_related (RelatedFields name sub_fields) it = RelOther →
     _get_document_fields_of get_value get_related column
       (RelatedFields name sub_fields) it
     = []).
Proof.
  unfold _get_document_fields_of. simpl.
  split; intros ->; reflexivity.
Qed.

(** X9. The keys of a document are [id] and the keys the field
    descriptors emitted, nothing else. *)
Theorem create_document_keys (m : model) (it : item) :
  dom (_create_document get_search_fields item_id get_value get_related column m it)
  = {[ "id" ]}
    ∪ list_to_set
        (_get_document_fields get_search_fields get_value get_related column m it).*1.
Proof.
  rewrite (create_document_id_eq get_search_fields item_id get_value
             get_related column m it).
  rewrite dom_insert_L, py_dict_dom. f_equal.
  rewrite <- list_fmap_compose. reflexivity.
Qed.

(** X10. When several descriptors emit the same key, the document holds
    the value of the last one (for any key but [id]). *)
Theorem create_document_last_wins (m : model) (it : item)
    (before after : list (string * string)) (k v : string) :
  _get_document_fields get_search_fields get_value get_related column m it
  = before ++ (k, v) :: after →
  k ∉ after.*1 → k ≠ "id" →
  _create_document get_search_fields item_id get_value get_related column m it !! k
  = Some (DocStr v).
Proof.
  intros Hfields Hlast Hk.
  rewrite create_document_other by done.
  rewrite Hfields, map_app. simpl.
  apply py_dict_lookup_last.
  intros Hin. apply Hlast.
  rewrite <- list_fmap_compose in Hin. exact Hin.
Qed.

End DocumentBuilderMoreFacts.

(* ===================================================================== *)
(** * Search Orchestrator: further facts on merging and scoring *)
(* ===================================================================== *)

Lemma merge_hits_absorb (results hits : list hit) :
  (∀ h, h ∈ hits → hit_key h ∈ hit_key <$> results) →
  merge_hits results hits = results.
Proof.
  induction hits as [|h hits IH]; intros Hin; [done|].
  rewrite merge_hits_cons.
  assert (py_in h results = true) as ->.
  { apply py_in_true. apply Hin. by left. }
  apply IH. intros h' Hh'. apply Hin. by right.
Qed.

(** X11. Hits that were merged already are absorbed: merging the same
    hits a second time (an index answering twice, a model listed twice)
    leaves the list as it is. *)
Theorem merge_hits_idempotent (results hits : list hit) :
  merge_hits results (hits ++ hits) = merge_hits results hits.
Proof.
  rewrite merge_hits_app. apply merge_hits_absorb.
  intros h Hh. apply merge_hits_covers_key.
  apply list_elem_of_fmap_2. apply elem_of_app. by right.
Qed.

(** X12. When no two of the hits at hand are equal, merging drops
    nothing: the hits are appended as they come. *)
Theorem merge_hits_distinct_input (results hits : list hit) :
  NoDup (hit_key <$> (results ++ hits)) →
  merge_hits results hits = results ++ hits.
Proof.
  revert results. induction hits as [|h hits IH]; intros results Hnd.
  - by rewrite app_nil_r.
  - rewrite merge_hits_cons.
    assert (py_in h results = false) as ->.
    { apply py_in_false. rewrite fmap_app, fmap_cons in Hnd.
      apply NoDup_app in Hnd as (_ & Hdisj & _).
      intros Hin. apply (Hdisj _ Hin). by left. }
    rewrite IH; rewrite <- app_assoc; done.
Qed.

Lemma sum_list_with_map {B C} (f : C → nat) (g : B → C) (l : list B) :
  sum_list_with f (map g l) = sum_list_with (λ x, f (g x)) l.
Proof. induction l as [|x l IH]; simpl; [done|]. by rewrite IH. Qed.

Lemma sum_list_with_cons {B} (f : B → nat) (x : B) (l : list B) :
  sum_list_with f (x :: l) = (f x + sum_list_with f l)%nat.
Proof. reflexivity. Qed.

Lemma py_join_length_cons (sep s : string) (parts : list string) :
  String.length (py_join sep (s :: parts))
  = (String.length s
     + sum_list_with (λ p, String.length sep + String.length p) parts)%nat.
Proof.
  revert s. induction parts as [|p parts IH]; intros s.
  - simpl. lia.
  - change (py_join sep (s :: p :: parts)) with (s +:+ sep +:+ py_join sep (p :: parts)).
    rewrite !string_length_app, IH. simpl. lia.
Qed.

(** The length of the rendering of match metadata: two braces when there
    is no entry, and otherwise the sum over the entries of the length of
    the entry and of its separator or brace. *)
Lemma py_str_matches_length (d : list (string * list span)) :
  String.length (py_str_matches d)
  = match d with
    | [] => 2%nat
    | _ => sum_list_with
             (λ kv, 2 + String.length (py_repr_str kv.1 +:+ ": " +:+ py_repr_spans kv.2))%nat
             d
    end.
Proof.
  unfold py_str_matches. destruct d as [|kv d]; [reflexivity|].
  rewrite !string_length_app, map_cons, py_join_length_cons, sum_list_with_map.
  rewrite sum_list_with_cons.
  change (String.length ", ") with 2%nat.
  change (String.length "{") with 1%nat.
  change (String.length "}") with 1%nat.
  lia.
Qed.

Lemma score_set_score (h : hit) :
  score (set_score h) = String.length (py_str_matches (hit_matchesInfo h)).
Proof. reflexivity. Qed.

Lemma score_perm (h1 h2 : hit) :
  hit_matchesInfo h1 ≡ₚ hit_matchesInfo h2 →
  score (set_score h1) = score (set_score h2).
Proof.
  rewrite !score_set_score, !py_str_matches_length.
  generalize (hit_matchesInfo h1) (hit_matchesInfo h2).
  intros [|kv1 d1] [|kv2 d2] Hperm.
  - done.
  - by apply Permutation_nil_cons in Hperm.
  - symmetry in Hperm. by apply Permutation_nil_cons in Hperm.
  - by rewrite Hperm.
Qed.

(** X13. The score of a hit does not depend on the order in which its
    match metadata lists the fields. *)
Theorem score_order_independent (h1 h2 : hit) :
  hit_matchesInfo h1 ≡ₚ hit_matchesInfo h2 →
  score (set_score h1) = score (set_score h2).
Proof. apply score_perm. Qed.

Lemma py_dict_list_to_map {V} (pairs : list (string * V)) :
  py_dict pairs = list_to_map (reverse pairs).
Proof.
  induction pairs as [|[k v] pairs IH] using rev_ind; [done|].
  by rewrite py_dict_snoc, reverse_snoc, list_to_map_cons, IH.
Qed.

(** X14. Hits that Python's [==] equates have the same score (their
    dicts holding each key once, as dicts do). *)
Theorem equal_hits_equal_scores (h1 h2 : hit) :
  NoDup (hit_matchesInfo h1).*1 → NoDup (hit_matchesInfo h2).*1 →
  py_eq h1 h2 →
  score (set_score h1) = score (set_score h2).
Proof.
  intros Hnd1 Hnd2 Heq. apply score_perm.
  unfold py_eq, hit_key in Heq. injection Heq as _ _ Hmap.
  rewrite !py_dict_list_to_map in Hmap.
  apply list_to_map_inj in Hmap.
  - by rewrite !reverse_Permutation in Hmap.
  - by rewrite fmap_reverse, reverse_Permutation.
  - by rewrite fmap_reverse, reverse_Permutation.
Qed.

Lemma sum_list_with_sublist {B} (f : B → nat) (l1 l2 : list B) :
  l1 `sublist_of` l2 → (sum_list_with f l1 ≤ sum_list_with f l2)%nat.
Proof. induction 1; simpl; lia. Qed.

(** X15. The score is at least 2 and grows with the metadata: a hit whose
    match metadata is a part of another's scores no more than it. *)
Theorem score_monotone (h1 h2 : hit) :
  hit_matchesInfo h1 `sublist_of` hit_matchesInfo h2 →
  (2 ≤ score (set_score h1) ≤ score (set_score h2))%nat.
Proof.
  rewrite !score_set_score, !py_str_matches_length.
  generalize (hit_matchesInfo h1) (hit_matchesInfo h2).
  intros [|kv1 d1] [|kv2 d2] Hsub.
  - lia.
  - rewrite sum_list_with_cons. lia.
  - by apply sublist_nil_r in Hsub.
  - split; [rewrite sum_list_with_cons; lia|]. by apply sum_list_with_sublist.
Qed.

(* ===================================================================== *)
(** * Result Materializer: further facts *)
(* ===================================================================== *)

Lemma filter_all {A} (P : A → Prop) `{∀ x, Decision (P x)} (l : list A) :
  Forall P l → filter P l = l.
Proof.
  induction 1 as [|x l Hx Hl IH]; [done|].
  by rewrite filter_cons_True, IH.
Qed.

Lemma filter_none {A} (P : A → Prop) `{∀ x, Decision (P x)} (l : list A) :
  Forall (λ x, ¬ P x) l → filter P l = [].
Proof.
  induction 1 as [|x l Hx Hl IH]; [done|].
  by rewrite filter_cons_False, IH.
Qed.

Lemma distinct_NoDup_id {A} `{EqDecision A} (l : list A) : NoDup l → distinct l = l.
Proof.
  induction 1 as [|x l Hx Hnd IH]; simpl; [done|].
  rewrite IH. f_equal. apply filter_all.
  apply Forall_forall. intros y Hy ->. done.
Qed.

Lemma sorted_ids_elem_of (results : list hit) (k : Z) :
  k ∈ sorted_ids results ↔ k ∈ hit_id <$> results.
Proof.
  unfold sorted_ids, sorted_results. rewrite !list_elem_of_fmap. split.
  - intros (sh & -> & Hsh). rewrite py_sorted_perm in Hsh.
    apply list_elem_of_fmap in Hsh as (h & -> & Hh). by exists h.
  - intros (h & -> & Hh). exists (set_score h). split; [done|].
    rewrite py_sorted_perm. by apply list_elem_of_fmap_2.
Qed.

Section MaterializerMoreFacts.
Context {model record : Type} `{EqDecision record}.
Variable pk : record → Z.

(** X16. No row comes twice in the output, whatever duplicates the
    queryset or the hit list hold. *)
Theorem materialize_NoDup (qc : query_compiler model record)
    (start : nat) (stop : option nat) (results : list hit) :
  NoDup (materialize pk qc start stop results).
Proof.
  unfold materialize.
  eapply sublist_NoDup; [apply distinct_NoDup|apply slice_sublist].
Qed.

(** X17. Without limits, the output holds exactly the rows of the
    queryset whose primary key is the id of some hit, with or without
    [order_by_relevance]. *)
Theorem materialize_full_elem_of (qc : query_compiler model record)
    (results : list hit) (r : record) :
  r ∈ materialize pk qc 0 None results
  ↔ r ∈ qs_rows (qc_queryset qc) ∧ pk r ∈ hit_id <$> results.
Proof.
  unfold materialize. rewrite slice_all, distinct_elem_of.
  rewrite <- sorted_ids_elem_of.
  destruct (qc_order_by_relevance qc).
  - rewrite order_by_perm, list_elem_of_filter. tauto.
  - rewrite list_elem_of_filter. tauto.
Qed.

(** X18. With limits, the output is the window of the full output: its
    [i]-th row is row [start + i] of the full sequence, as long as
    [start + i] stays below [stop]; it has at most [stop - start] rows. *)
Theorem materialize_window_lookup (qc : query_compiler model record)
    (start : nat) (stop : option nat) (results : list hit) (i : nat) :
  materialize pk qc start stop results !! i
  = match stop with
    | None => materialize pk qc 0 None results !! (start + i)%nat
    | Some e =>
        if decide (start + i < e)%nat
        then materialize pk qc 0 None results !! (start + i)%nat
        else None
    end.
Proof.
  rewrite materialize_window. unfold slice at 1.
  destruct stop as [e|].
  - destruct (decide (start + i < e)%nat).
    + rewrite lookup_take_lt by lia. apply lookup_drop.
    + apply lookup_take_ge. lia.
  - apply lookup_drop.
Qed.

Lemma materialize_nil (qc : query_compiler model record)
    (start : nat) (stop : option nat) :
  materialize pk qc start stop [] = [].
Proof.
  assert (∀ rows : list record, filter (λ r, pk r ∈ sorted_ids []) rows = [])
    as Hfilter.
  { intros rows. apply filter_none. apply Forall_forall.
    intros r _ Hin. by apply elem_of_nil in Hin. }
  unfold materialize. rewrite !Hfilter.
  destruct (qc_order_by_relevance qc), stop; simpl; by rewrite ?drop_nil, ?take_nil.
Qed.

End MaterializerMoreFacts.

Lemma Case_whens_cons (x : Z) (ids : list Z) (k : Z) :
  Case (whens (x :: ids)) k
  = if decide (x = k) then Some 0%nat else S <$> Case (whens ids) k.
Proof.
  rewrite !Case_whens. cbn [list_find].
  destruct (decide (x = k)); [done|].
  by destruct (list_find _ ids) as [[i y]|].
Qed.

Lemma null_last_leb_S (a b : option nat) :
  null_last_leb (S <$> a) (S <$> b) = null_last_leb a b.
Proof. by destruct a, b. Qed.

Lemma StronglySorted_impl_elem {A} (R1 R2 : relation A) (l : list A) :
  (∀ a b, a ∈ l → b ∈ l → R1 a b → R2 a b) →
  StronglySorted R1 l → StronglySorted R2 l.
Proof.
  intros Himp Hs. induction Hs as [|x l Hs IH Hx]; [constructor|].
  constructor.
  - apply IH. intros a b Ha Hb. apply Himp; by right.
  - rewrite Forall_forall in Hx |- *. intros y Hy.
    apply Himp; [by left|by right|by apply Hx].
Qed.

(** The ids, each once, stand in the order of their first occurrences. *)
Lemma distinct_ids_sorted (ids : list Z) :
  StronglySorted
    (λ a b, null_last_leb (Case (whens ids) a) (Case (whens ids) b) = true)
    (distinct ids).
Proof.
  induction ids as [|x ids IH]; simpl; [constructor|].
  constructor.
  - apply (StronglySorted_impl_elem
             (λ a b, null_last_leb (Case (whens ids) a) (Case (whens ids) b) = true)).
    + intros a b Ha Hb Hab.
      apply list_elem_of_filter in Ha as [Ha _], Hb as [Hb _].
      rewrite !Case_whens_cons.
      rewrite !decide_False by done. by rewrite null_last_leb_S.
    + eapply StronglySorted_sublist; [apply sublist_filter|exact IH].
  - apply Forall_forall. intros y _.
    rewrite (Case_whens_cons x ids x), decide_True by done.
    by destruct (Case (whens (x :: ids)) y).
Qed.

Section ExactOrder.
Context {model record : Type} `{EqDecision record}.
Variable pk : record → Z.

(** X20. When primary keys are unique in the queryset, the relevance
    order is exactly the score order: without limits, the primary keys
    of the output are the sorted ids, each at its first (best scoring)
    place, less the ids the queryset does not hold. *)
Theorem materialize_exact_order (qc : query_compiler model record)
    (results : list hit) :
  NoDup (pk <$> qs_rows (qc_queryset qc)) →
  qc_order_by_relevance qc = true →
  pk <$> materialize pk qc 0 None results
  = filter (λ k, k ∈ pk <$> qs_rows (qc_queryset qc))
           (distinct (sorted_ids results)).
Proof.
  intros Hnd Hrel.
  set (ids := sorted_ids results). set (rows := qs_rows (qc_queryset qc)).
  set (key := λ r : record, Case (whens ids) (pk r)).
  set (R := λ a b : Z,
         null_last_leb (Case (whens ids) a) (Case (whens ids) b) = true).
  assert (NoDup (pk <$> filter (λ r, pk r ∈ ids) rows)) as Hnd'.
  { eapply sublist_NoDup; [exact Hnd|]. apply fmap_sublist, sublist_filter. }
  assert (materialize pk qc 0 None results
          = order_by key (filter (λ r, pk r ∈ ids) rows)) as ->.
  { unfold materialize. rewrite Hrel, slice_all. apply distinct_NoDup_id.
    rewrite order_by_perm. by apply NoDup_fmap_1 in Hnd'. }
  apply (StronglySorted_unique_strong R).
  - intros a b Ha Hb Hab Hba.
    apply list_elem_of_filter in Hb as [_ Hb]. rewrite distinct_elem_of in Hb.
    apply list_elem_of_fmap in Ha as (r & -> & Hr).
    rewrite order_by_perm in Hr. apply list_elem_of_filter in Hr as [Hr _].
    destruct (Case_whens_is_Some ids (pk r) Hr) as [i Hi].
    destruct (Case_whens_is_Some ids b Hb) as [j Hj].
    unfold R in Hab, Hba. rewrite Hi, Hj in Hab, Hba. simpl in Hab, Hba.
    apply Nat.leb_le in Hab, Hba. assert (i = j) as -> by lia.
    apply Case_whens_Some in Hi as [Hi _]. apply Case_whens_Some in Hj as [Hj _].
    congruence.
  - apply (StronglySorted_fmap pk
             (λ a b, null_last_leb (key a) (key b) = true) R); [done|].
    apply order_by_sorted.
  - eapply StronglySorted_sublist; [apply sublist_filter|].
    apply distinct_ids_sorted.
  - apply NoDup_Permutation.
    + by rewrite order_by_perm.
    + apply NoDup_filter, distinct_NoDup.
    + intros k. rewrite order_by_perm, list_elem_of_filter, distinct_elem_of.
      rewrite !list_elem_of_fmap. split.
      * intros (r & -> & Hr). apply list_elem_of_filter in Hr as [Hin Hrow].
        split; [|done]. by exists r.
      * intros [(r & -> & Hr) Hin]. exists r. split; [done|].
        by apply list_elem_of_filter.
Qed.

End ExactOrder.

Lemma materialize_exact_order_witness :
  Site.pk <$> materialize (model := string) Site.pk (Site.qc true) 0 None
                [Site.page_hit_1; Site.page_hit_2; Site.page_hit_7; Site.home_hit_1]
  = filter (λ k, k ∈ Site.pk <$> Site.rows)
           (distinct (sorted_ids
              [Site.page_hit_1; Site.page_hit_2; Site.page_hit_7; Site.home_hit_1])).
Proof.
  apply (materialize_exact_order (model := string) Site.pk (Site.qc true)).
  - vm_compute. repeat constructor; intros Hin;
      apply list_elem_of_In in Hin; simpl in Hin; intuition discriminate.
  - reflexivity.
Defined.

(* ===================================================================== *)
(** * The memo table of [get_descendant_models] *)
(* ===================================================================== *)

Section FindKey.
Context {K V : Type} `{EqDecision K}.

Local Abbreviation find_key k l :=
  (List.find (λ e : K * V, bool_decide (e.1 = k)) l).

Lemma find_key_filter_ne (l : list (K * V)) (k k' : K) :
  k' ≠ k → find_key k' (filter (λ e, e.1 ≠ k) l) = find_key k' l.
Proof.
  intros Hne. induction l as [|e l IH]; [done|].
  rewrite filter_cons. destruct (decide (e.1 ≠ k)) as [Hk|Hk]; simpl.
  - by rewrite IH.
  - rewrite IH. apply dec_stable in Hk.
    rewrite bool_decide_eq_false_2; [done|]. congruence.
Qed.

Lemma find_key_app (l1 l2 : list (K * V)) (k : K) :
  find_key k (l1 ++ l2)
  = match find_key k l1 with Some e => Some e | None => find_key k l2 end.
Proof.
  induction l1 as [|e l1 IH]; simpl; [done|]. by destruct (bool_decide _).
Qed.

Lemma find_key_None (l : list (K * V)) (k : K) :
  find_key k l = None ↔ k ∉ l.*1.
Proof.
  induction l as [|e l IH]; simpl.
  - split; [intros _; apply not_elem_of_nil|done].
  - rewrite not_elem_of_cons.
    destruct (bool_decide_reflect (e.1 = k)) as [Heq|Hne].
    + split; [done|]. intros [Hk _]. by destruct Hk.
    + rewrite IH. split; [intros Hk; split; [congruence|done]|by intros [_ Hk]].
Qed.

Lemma find_key_Some (l : list (K * V)) (k : K) (e : K * V) :
  find_key k l = Some e → e.1 = k ∧ e ∈ l.
Proof.
  intros [Hin He]%find_some. apply bool_decide_eq_true in He.
  split; [done|]. by apply list_elem_of_In.
Qed.

End FindKey.

Section CacheFacts.
Context {model record : Type} `{EqDecision model} `{EqDecision record}.
Variable meta_label : model → string.
Variable issubclass : model → model → bool.
Variable pk : record → Z.
Variable E : env model record.

Lemma _do_search_lru (qc : query_compiler model record)
    (start : nat) (stop : option nat) (s : state model) :
  lru (_do_search meta_label issubclass pk E qc start stop s).2
  = lru (get_descendant_models issubclass E (qs_model (qc_queryset qc)) s).2.
Proof.
  unfold _do_search.
  destruct (get_descendant_models issubclass E (qs_model (qc_queryset qc)) s)
    as [[e|models] s1] eqn:Hd.
  { unfold get_descendant_models in Hd. by destruct (List.find _ _). }
  rewrite (bind_run _ _ _ _ _ Hd).
  destruct (fan_out_run meta_label E models (qc_query_string qc) [] s1)
    as (s2 & Hfan & Hlru & _).
  rewrite (bind_run _ _ _ _ _ Hfan). simpl. exact Hlru.
Qed.

(** What one call does to the memo table. The entry of [m] comes first,
    with the list the call returned, and the other entries follow in the
    order they had. *)
Lemma get_descendant_models_front (m : model) (s : state model) :
  ∃ rest,
    lru (get_descendant_models issubclass E m s).2
    = (m, resolved_models issubclass E s m) :: rest
    ∧ rest `sublist_of` lru s
    ∧ m ∉ rest.*1.
Proof.
  unfold get_descendant_models, resolved_models.
  destruct (List.find _ (lru s)) as [e|] eqn:Hfind; simpl.
  - apply find_key_Some in Hfind as [He Hin].
    exists (filter (λ e', e'.1 ≠ m) (lru s)). split_and!.
    + destruct e as [k v]. simpl in *. by subst.
    + apply sublist_filter.
    + intros Hk. apply list_elem_of_fmap in Hk as (e' & Heq & He').
      apply list_elem_of_filter in He' as [Hne _]. by apply Hne.
  - exists (take 127 (lru s)). split_and!.
    + reflexivity.
    + apply sublist_take.
    + apply find_key_None in Hfind. intros Hk. apply Hfind.
      eapply sublist_subseteq; [|exact Hk]. apply fmap_sublist, sublist_take.
Qed.

(** C6, as the code has it. The models resolved for a requested type are
    the models of the application registry that are subclasses of it, in
    the registry's order, whether registered for search or not; the
    requested type is one of them when the registry holds it and it is a
    subclass of itself. The list is memoized per requested type in a
    table of 128 entries: a call returns the stored list when there is
    one, whatever the registry has become, and the body's list otherwise;
    after the call the entry of the requested type is the most recent
    one, the entries of the other types are still there as long as the
    table had room or the call was answered from the table, and on a
    miss with a full table it is the least recently used entry, and only
    that one, that is dropped (the table holds one entry per type, and
    at most 128 entries: every call keeps it so). A search queries the
    indexes of exactly the resolved models, one search each, in order. *)
Theorem descendant_models_resolution (m : model) (s : state model) :
  (∀ x, x ∈ descendant_models issubclass E m
        ↔ x ∈ apps_get_models E ∧ issubclass x m = true)
  ∧ descendant_models issubclass E m `sublist_of` apps_get_models E
  ∧ (m ∈ apps_get_models E → issubclass m m = true →
     m ∈ descendant_models issubclass E m)
  ∧ (∀ r l, (get_descendant_models issubclass E m (State r [] l)).1
            = inr (descendant_models issubclass E m))
  ∧ (get_descendant_models issubclass E m s).1
    = inr (default (descendant_models issubclass E m) (cached s m))
  ∧ (∀ E' : env model record,
       (get_descendant_models issubclass E' m
              (get_descendant_models issubclass E m s).2).1
           = (get_descendant_models issubclass E m s).1)
  ∧ (let s' := (get_descendant_models issubclass E m s).2 in
     (∃ rest, lru s' = (m, resolved_models issubclass E s m) :: rest
              ∧ rest `sublist_of` lru s)
     ∧ cached s' m = Some (resolved_models issubclass E s m)
     ∧ (∀ m', m' ≠ m →
              is_Some (cached s m) ∨ (length (lru s) < lru_maxsize)%nat →
              cached s' m' = cached s m')
     ∧ (∀ k v, cached s m = None → length (lru s) = lru_maxsize →
               NoDup (lru s).*1 → last (lru s) = Some (k, v) →
               cached s' k = None
               ∧ ∀ m', m' ≠ m → m' ≠ k → cached s' m' = cached s m')
     ∧ ((length (lru s) ≤ lru_maxsize)%nat → (length (lru s') ≤ lru_maxsize)%nat)
     ∧ (NoDup (lru s).*1 → NoDup (lru s').*1))
  ∧ (∀ qc start stop,
       qs_model (qc_queryset qc) = m →
       searched (log (_do_search meta_label issubclass pk E qc start stop s).2)
       = searched (log s)
         ++ map (_get_label meta_label) (resolved_models issubclass E s m)).
Proof.
  assert (∀ x, x ∈ descendant_models issubclass E m
               ↔ x ∈ apps_get_models E ∧ issubclass x m = true) as Hmem.
  { intros x. unfold descendant_models.
    rewrite list_elem_of_In, filter_In, <- list_elem_of_In. done. }
  split_and!.
  - exact Hmem.
  - clear Hmem. unfold descendant_models.
    induction (apps_get_models E) as [|y l IH]; simpl.
    + done.
    + destruct (issubclass y m); by constructor.
  - intros Hin Hsub. by apply Hmem.
  - reflexivity.
  - unfold get_descendant_models, cached.
    by destruct (List.find _ (lru s)).
  - intros E'. unfold get_descendant_models.
    destruct (List.find _ (lru s)) as [e|] eqn:Hfind; simpl.
    + apply find_some in Hfind as [_ He]. rewrite He. reflexivity.
    + rewrite bool_decide_eq_true_2 by done. reflexivity.
  - intros s'.
    destruct (get_descendant_models_front m s) as (rest & Hfront & Hsub & Hfresh).
    fold s' in Hfront.
    split_and!.
    + by exists rest.
    + unfold cached. rewrite Hfront. simpl.
      by rewrite bool_decide_eq_true_2.
    + intros m' Hne Hroom. unfold cached, s', get_descendant_models.
      unfold cached in Hroom.
      destruct (List.find _ (lru s)) as [e|] eqn:Hfind; simpl.
      * apply find_key_Some in Hfind as [He _].
        rewrite bool_decide_eq_false_2 by congruence.
        by rewrite find_key_filter_ne.
      * destruct Hroom as [[? Hsome]|Hlen]; [discriminate|].
        rewrite bool_decide_eq_false_2 by congruence.
        rewrite take_ge; [done|]. unfold lru_maxsize in Hlen. lia.
    + intros k v Hmiss Hfull Hnd Hlast.
      apply last_Some in Hlast as [older Holder].
      unfold cached in Hmiss. apply fmap_None in Hmiss.
      assert (lru s' = (m, descendant_models issubclass E m) :: older) as Hs'.
      { unfold s', get_descendant_models. rewrite Hmiss. simpl.
        rewrite Holder. f_equal. rewrite take_app_length'; [done|].
        rewrite Holder, length_app in Hfull. unfold lru_maxsize in Hfull.
        simpl in Hfull. lia. }
      assert (k ≠ m) as Hkm.
      { intros ->. apply find_key_None in Hmiss. apply Hmiss.
        rewrite Holder, fmap_app. apply elem_of_app. right. by left. }
      assert (k ∉ older.*1) as Hk.
      { rewrite Holder, fmap_app in Hnd. apply NoDup_app in Hnd as (_ & Hdisj & _).
        intros Hin. apply (Hdisj k Hin). by left. }
      unfold cached. rewrite Hs'. simpl. split.
      * rewrite bool_decide_eq_false_2 by congruence.
        apply find_key_None in Hk. by rewrite Hk.
      * intros m' Hm Hk'. rewrite bool_decide_eq_false_2 by congruence.
        rewrite Holder, find_key_app. simpl.
        rewrite bool_decide_eq_false_2 by congruence.
        by destruct (List.find _ older).
    + intros Hlen. rewrite Hfront.
      unfold s', get_descendant_models in Hfront.
      destruct (List.find _ (lru s)) as [e|] eqn:Hfind; simpl in Hfront.
      * apply find_key_Some in Hfind as [He Hin].
        injection Hfront as _ Hrest. subst rest. simpl.
        pose proof (length_filter_lt (λ e', e'.1 ≠ m) (lru s) e Hin) as Hlt.
        assert (¬ e.1 ≠ m) as Hn by (intros Hn; by apply Hn).
        specialize (Hlt Hn). lia.
      * injection Hfront as Hrest. subst rest. cbn [length].
        rewrite length_take. unfold lru_maxsize. lia.
    + intros Hnd. rewrite Hfront. rewrite fmap_cons. apply NoDup_cons. split.
      * exact Hfresh.
      * eapply sublist_NoDup; [exact Hnd|]. by apply fmap_sublist.
  - intros qc start stop <-.
    destruct (_do_search_run meta_label issubclass pk E qc start stop s)
      as (s' & -> & Hlog). done.
Qed.

End CacheFacts.

(** On the example site [LegacyPage] is in the registry and subclasses
    [Page], but is not registered for search; a search on [Page] queries
    its index all the same. And where the registry does not list the
    requested model, the index of the requested model is not queried:
    only the indexes of its subclasses in the registry are. *)
Lemma unindexed_descendant_is_queried :
  (get_descendant_models Site.issubclass Site.E Site.Page Site.s0).1
  = inr [Site.Page; Site.HomePage; Site.EventPage; Site.LegacyPage]
  ∧ Site.class_is_indexed Site.Page = true
  ∧ Site.class_is_indexed Site.LegacyPage = false
  ∧ Site.LegacyPage ≠ Site.Page
  ∧ searched (log (_do_search Site.meta_label Site.issubclass Site.pk Site.E
                     (Site.qc true) 0 None Site.s0).2)
    = ["wagtailcore-Page"; "home-HomePage"; "home-EventPage"; "home-LegacyPage"]
  ∧ ¬ (∀ x, x ∈ [Site.Page; Site.HomePage; Site.EventPage; Site.LegacyPage]
            ↔ x = Site.Page
              ∨ (Site.class_is_indexed x = true ∧ Site.issubclass x Site.Page = true))
  ∧ (Site.Page ∉ apps_get_models Site.E_swapped)
  ∧ Site.issubclass Site.Page Site.Page = true
  ∧ (get_descendant_models Site.issubclass Site.E_swapped Site.Page Site.s0).1
    = inr [Site.HomePage; Site.EventPage; Site.LegacyPage]
  ∧ searched (log (_do_search Site.meta_label Site.issubclass Site.pk
                     Site.E_swapped (Site.qc true) 0 None Site.s0).2)
    = ["home-HomePage"; "home-EventPage"; "home-LegacyPage"].
Proof.
  split_and!; try (vm_compute; reflexivity).
  - discriminate.
  - intros Hall. destruct (Hall Site.LegacyPage) as [Hin _].
    destruct Hin as [Heq|[Hidx _]].
    + apply list_elem_of_In. simpl. tauto.
    + discriminate Heq.
    + discriminate Hidx.
  - intros Hin. apply list_elem_of_In in Hin. simpl in Hin.
    intuition discriminate.
Qed.

(** The theorem at the example site: the requested model is resolved; a
    search on an empty table queries the four indexes; with room in the
    table the entry of another model survives the call; a call answered
    from a full table keeps every entry; a miss on a full table drops the
    last entry and keeps the first. *)
Lemma descendant_models_resolution_witness :
  Site.Page ∈ descendant_models Site.issubclass Site.E Site.Page
  ∧ searched (log (_do_search Site.meta_label Site.issubclass Site.pk Site.E
                     (Site.qc false) 0 None Site.s0).2)
    = map (_get_label Site.meta_label)
          [Site.Page; Site.HomePage; Site.EventPage; Site.LegacyPage]
  ∧ cached (get_descendant_models Site.issubclass Site.E Site.Page
              (State ∅ [(Site.HomePage, [Site.HomePage])] [])).2 Site.HomePage
    = Some [Site.HomePage]
  ∧ cached (get_descendant_models Site.issubclass Site.E "shop.Product127"
              Site.s_full).2 "shop.Product126"
    = Some ["shop.Product126"]
  ∧ cached (get_descendant_models Site.issubclass Site.E Site.Page
              Site.s_full).2 "shop.Product127"
    = None
  ∧ cached (get_descendant_models Site.issubclass Site.E Site.Page
              Site.s_full).2 "shop.Product0"
    = Some ["shop.Product0"].
Proof.
  split_and!.
  - apply (descendant_models_resolution Site.meta_label Site.issubclass Site.pk
             Site.E Site.Page Site.s0).
    + apply list_elem_of_In. simpl. tauto.
    + reflexivity.
  - destruct (descendant_models_resolution Site.meta_label Site.issubclass Site.pk
                Site.E Site.Page Site.s0)
      as (_ & _ & _ & _ & _ & _ & _ & Hsearched).
    apply (Hsearched (Site.qc false) 0%nat None eq_refl).
  - destruct (descendant_models_resolution Site.meta_label Site.issubclass Site.pk
                Site.E Site.Page (State ∅ [(Site.HomePage, [Site.HomePage])] []))
      as (_ & _ & _ & _ & _ & _ & (_ & _ & Hroom & _) & _).
    rewrite (Hroom Site.HomePage); [reflexivity|discriminate|].
    right. vm_compute. lia.
  - destruct (descendant_models_resolution Site.meta_label Site.issubclass Site.pk
                Site.E "shop.Product127" Site.s_full)
      as (_ & _ & _ & _ & _ & _ & (_ & _ & Hhit & _) & _).
    rewrite (Hhit "shop.Product126"); [vm_compute; reflexivity|discriminate|].
    left. vm_compute. eexists. reflexivity.
  - destruct (descendant_models_resolution Site.meta_label Site.issubclass Site.pk
                Site.E Site.Page Site.s_full)
      as (_ & _ & _ & _ & _ & _ & (_ & _ & _ & Hfull & _) & _).
    apply (Hfull "shop.Product127" ["shop.Product127"]).
    + vm_compute. reflexivity.
    + vm_compute. reflexivity.
    + refine (bool_decide_unpack _ _). vm_compute. exact I.
    + vm_compute. reflexivity.
  - destruct (descendant_models_resolution Site.meta_label Site.issubclass Site.pk
                Site.E Site.Page Site.s_full)
      as (_ & _ & _ & _ & _ & _ & (_ & _ & _ & Hfull & _) & _).
    destruct (Hfull "shop.Product127" ["shop.Product127"]) as [_ Hkept].
    + vm_compute. reflexivity.
    + vm_compute. reflexivity.
    + refine (bool_decide_unpack _ _). vm_compute. exact I.
    + vm_compute. reflexivity.
    + rewrite (Hkept "shop.Product0"); [vm_compute; reflexivity|discriminate..].
Defined.

(* ===================================================================== *)
(** * From [search] to the rows *)
(* ===================================================================== *)

Lemma bind_fail {model A B} (m : M model A) (f : A → M model B) s e s' :
  m s = (inl e, s') → (m ≫= f) s = (inl e, s').
Proof. intros Hm. unfold mbind, M_bind. by rewrite Hm. Qed.

Section SearchThenRead.
Context {model record : Type} `{EqDecision model} `{EqDecision record}.
Variable meta_label : model → string.
Variable issubclass : model → model → bool.
Variable class_is_indexed : model → bool.
Variable pk : record → Z.
Variable check : query_compiler model record → option exn.
Variable E : env model record.

Lemma search_cases (query : string) (mq : model_or_queryset model record)
    (fields : option (list string)) (operator : option string)
    (order_by_relevance partial_match : bool) (s : state model) :
  let qc := QueryCompiler MeiliSearchQueryCompiler (target_queryset E mq) query
                          fields operator order_by_relevance partial_match in
  search class_is_indexed check E MeiliSearchBackend query mq fields operator
         order_by_relevance partial_match s
  = if negb (class_is_indexed (target_model mq)) || String.eqb query ""
    then (inr EmptySearchResults, s)
    else match check qc with
         | Some e => (inl e, s)
         | None => (inr (MeiliSearchResults qc 0 None), s)
         end.
Proof.
  unfold search, _search. simpl.
  destruct mq as [m|qs]; simpl;
    (destruct (class_is_indexed _); simpl; [|done]);
    (destruct (String.eqb query ""); simpl; [done|]);
    by destruct (check _).
Qed.

(** C2. When the content type is not registered for search, or the query
    is the empty string, [search] returns [EmptySearchResults] and the
    world is untouched: nothing is logged, and reading or counting the
    result logs nothing either. In all other cases the query compiler is
    built on the queryset and the query and checked (a failing check
    raises its exception), and the query is run when the object [search]
    returns is read: the rows are the ones [_do_search] returns, that is
    the rows materialized from the merged hits of the resolved models;
    the index of every resolved model is searched, in order, and the
    datastore is asked once, after them, unless no hit was merged. *)
Theorem search_validation
    (query : string) (mq : model_or_queryset model record)
    (fields : option (list string)) (operator : option string)
    (order_by_relevance partial_match : bool) (s : state model) :
  (class_is_indexed (target_model mq) = false ∨ query = "" →
     search class_is_indexed check E MeiliSearchBackend query mq fields operator
            order_by_relevance partial_match s
     = (inr EmptySearchResults, s)
     ∧ results meta_label issubclass pk E EmptySearchResults s = (inr [], s)
     ∧ count meta_label issubclass pk E EmptySearchResults s = (inr 0%nat, s))
  ∧
  (class_is_indexed (target_model mq) = true → query ≠ "" →
     let search_query :=
       QueryCompiler MeiliSearchQueryCompiler (target_queryset E mq) query
                     fields operator order_by_relevance partial_match in
     search class_is_indexed check E MeiliSearchBackend query mq fields operator
            order_by_relevance partial_match s
     = match check search_query with
       | Some e => (inl e, s)
       | None => (inr (MeiliSearchResults search_query 0 None), s)
       end
     ∧ (check search_query = None →
        let models := resolved_models issubclass E s (target_model mq) in
        let merged := merge_hits [] (all_hits meta_label E models query) in
        let run := (search class_is_indexed check E MeiliSearchBackend query mq
                           fields operator order_by_relevance partial_match
                    ≫= results meta_label issubclass pk E) s in
        run.1 = inr (materialize pk search_query 0 None merged)
        ∧ run.1 = (_do_search meta_label issubclass pk E search_query 0 None s).1
        ∧ ∃ calls,
            log run.2
            = log s ++ calls
                ++ (if bool_decide (merged = []) then [] else [DatastoreQuery])
            ∧ searched calls = map (_get_label meta_label) models
            ∧ DatastoreQuery ∉ calls)).
Proof.
  pose proof (search_cases query mq fields operator order_by_relevance
                partial_match s) as Hs.
  cbv zeta in Hs. split.
  - intros Hrej. split_and!; try reflexivity.
    rewrite Hs. destruct Hrej as [-> | ->]; [done|].
    by rewrite orb_true_r.
  - intros Hidx Hq search_query.
    rewrite Hidx in Hs. apply String.eqb_neq in Hq. rewrite Hq in Hs.
    simpl in Hs. fold search_query in Hs.
    split; [exact Hs|].
    intros Hcheck models merged run. rewrite Hcheck in Hs.
    unfold run. rewrite (bind_run _ _ _ _ _ Hs).
    assert (qs_model (qc_queryset search_query) = target_model mq) as Hmodel
      by (by destruct mq).
    destruct (results_run meta_label issubclass pk E search_query 0 None s)
      as (s' & calls & Hrun & Hrows & Hlog & Hsearched & Hd).
    rewrite Hmodel in Hrun, Hrows, Hlog, Hsearched.
    rewrite known_empty_fresh in Hlog.
    rewrite Hrun, Hrows. split_and!; try done.
    by exists calls.
Qed.

(** X23. For the object [search] returns, [count] is the number of rows
    [results] gives, and it fails exactly when [results] fails, with the
    same exception. *)
Theorem search_count_is_length_of_results (query : string)
    (mq : model_or_queryset model record)
    (fields : option (list string)) (operator : option string)
    (order_by_relevance partial_match : bool) (s : state model) :
  ((search class_is_indexed check E MeiliSearchBackend query mq fields operator
           order_by_relevance partial_match
    ≫= count meta_label issubclass pk E) s).1
  = match ((search class_is_indexed check E MeiliSearchBackend query mq fields
                   operator order_by_relevance partial_match
            ≫= results meta_label issubclass pk E) s).1 with
    | inl e => inl e
    | inr rows => inr (length rows)
    end.
Proof.
  pose proof (search_cases query mq fields operator order_by_relevance
                partial_match s) as Hs.
  cbv zeta in Hs.
  destruct (negb _ || _).
  { by rewrite !(bind_run _ _ _ _ _ Hs). }
  destruct (check _).
  { by rewrite !(bind_fail _ _ _ _ _ Hs). }
  rewrite !(bind_run _ _ _ _ _ Hs).
  unfold count. rewrite _do_count_run.
  match goal with
  | |- context [results ?a ?b ?c ?d (MeiliSearchResults ?q 0%nat None)] =>
      destruct (results_run a b c d q 0 None s) as (s' & calls & -> & _)
  end.
  reflexivity.
Qed.

End SearchThenRead.

Lemma search_validation_witness :
  search Site.class_is_indexed Site.check Site.E MeiliSearchBackend
         "" (AModel Site.Page) None None true true Site.s0
  = (inr EmptySearchResults, Site.s0)
  ∧ search Site.class_is_indexed Site.check Site.E MeiliSearchBackend
           "us" (AModel Site.LegacyPage) None None true true Site.s0
    = (inr EmptySearchResults, Site.s0)
  ∧ search Site.class_is_indexed Site.check Site.E MeiliSearchBackend
           "us" (AModel Site.Page) None None true true Site.s0
    = (inr (MeiliSearchResults (Site.qc true) 0 None), Site.s0)
  ∧ ((search Site.class_is_indexed Site.check Site.E MeiliSearchBackend
             "us" (AModel Site.Page) None None true true
      ≫= results Site.meta_label Site.issubclass Site.pk Site.E) Site.s0).1
    = inr [(1, "Welcome"); (2, "About")].
Proof.
  split_and!.
  - apply (search_validation Site.meta_label Site.issubclass
             Site.class_is_indexed Site.pk Site.check Site.E "" (AModel Site.Page)).
    right. reflexivity.
  - apply (search_validation Site.meta_label Site.issubclass
             Site.class_is_indexed Site.pk Site.check Site.E "us"
             (AModel Site.LegacyPage)).
    left. reflexivity.
  - apply (search_validation Site.meta_label Site.issubclass
             Site.class_is_indexed Site.pk Site.check Site.E "us"
             (AModel Site.Page) None None true true Site.s0).
    + reflexivity.
    + discriminate.
  - destruct (proj2 (search_validation Site.meta_label Site.issubclass
                       Site.class_is_indexed Site.pk Site.check Site.E "us"
                       (AModel Site.Page) None None true true Site.s0)
                eq_refl ltac:(discriminate)) as [_ Hrun].
    destruct (Hrun eq_refl) as [Hrows _].
    rewrite Hrows. vm_compute. reflexivity.
Defined.

(** The calls of that read, and of a read that finds no hit: the datastore
    is asked after the four index searches, and not at all when no index
    returned a hit. *)
Example search_then_results_log :
  log ((search Site.class_is_indexed Site.check Site.E MeiliSearchBackend
               "us" (AModel Site.Page) None None true true
        ≫= results Site.meta_label Site.issubclass Site.pk Site.E) Site.s0).2
  = [GetSettings "wagtailcore-Page"; CreateIndex "wagtailcore-Page";
     IndexSearch "wagtailcore-Page" "us" 999999 "true";
     GetSettings "home-HomePage"; CreateIndex "home-HomePage";
     IndexSearch "home-HomePage" "us" 999999 "true";
     GetSettings "home-EventPage"; CreateIndex "home-EventPage";
     IndexSearch "home-EventPage" "us" 999999 "true";
     GetSettings "home-LegacyPage"; CreateIndex "home-LegacyPage";
     IndexSearch "home-LegacyPage" "us" 999999 "true";
     DatastoreQuery]
  ∧ log ((search Site.class_is_indexed Site.check Site.E MeiliSearchBackend
                 "nothing" (AModel Site.HomePage) None None true true
          ≫= results Site.meta_label Site.issubclass Site.pk Site.E) Site.s0).2
    = [GetSettings "home-HomePage"; CreateIndex "home-HomePage";
       IndexSearch "home-HomePage" "nothing" 999999 "true"].
Proof. split; vm_compute; reflexivity. Qed.

(* ===================================================================== *)
(** * Ingestion and index lifecycle: facts *)
(* ===================================================================== *)

Lemma w_bind_run {model A B} (m : W model A) (f : A → W model B) w x w' :
  m w = (inr x, w') → (m ≫= f) w = f x w'.
Proof. intros Hm. unfold mbind, W_bind. by rewrite Hm. Qed.

Lemma w_bind_fail {model A B} (m : W model A) (f : A → W model B) w e w' :
  m w = (inl e, w') → (m ≫= f) w = (inl e, w').
Proof. intros Hm. unfold mbind, W_bind. by rewrite Hm. Qed.

Lemma union_singleton_elem (uid : string) (X : gset string) :
  uid ∈ X → {[ uid ]} ∪ X = X.
Proof.
  intros Hin. apply set_eq. intros x.
  rewrite elem_of_union, elem_of_singleton. split; [|by right].
  by intros [->|?].
Qed.

Lemma union_singleton_difference (uid : string) (X : gset string) :
  uid ∈ X → {[ uid ]} ∪ X ∖ {[ uid ]} = X.
Proof.
  intros Hin. apply set_eq. intros x.
  rewrite elem_of_union, elem_of_difference, elem_of_singleton. split.
  - by intros [->|[? _]].
  - intros Hx. destruct (decide (x = uid)) as [->|Hne]; [by left|by right].
Qed.

Lemma foldl_snoc_map {B C} (f : B → C) (acc : list C) (items : list B) :
  foldl (λ prepared it, prepared ++ [f it]) acc items = acc ++ map f items.
Proof.
  revert acc. induction items as [|it items IH]; intros acc; simpl.
  - by rewrite app_nil_r.
  - by rewrite IH, <- app_assoc.
Qed.

Section IngestionFacts.
Context {model item ack : Type}.
Variable meta_label : model → string.
Variable get_search_fields : model → list field.
Variable item_id : item → Z.
Variable get_value : field → item → pyvalue.
Variable get_related : field → item → related_value item.
Variable column : string → item → pyvalue.
Variable type_of : item → model.
Variable acknowledge : string → list (gmap string docvalue) → ack.

Local Abbreviation label_of := (_get_label meta_label).
Local Abbreviation document :=
  (_create_document get_search_fields item_id get_value get_related column).

(** The two reads of a get-or-create. *)
Local Abbreviation get_or_create uid w :=
  [Read (GetSettings uid%string);
   Read (if bool_decide (uid%string ∈ w_remote w) then GetIndex uid%string
         else CreateIndex uid%string)].

Lemma lift_get_index_for_model (m : model) (w : wstate model) :
  lift (get_index_for_model meta_label m) w
  = (inr (ModelIndex m (meta_label m) (label_of m) 999999 "true"),
     WState ({[ label_of m ]} ∪ w_remote w) (w_lru w)
            (w_calls w ++ get_or_create (label_of m) w)).
Proof.
  unfold lift, get_index_for_model, _set_index, mbind, M_bind, get_settings.
  simpl. destruct (bool_decide_reflect (label_of m ∈ w_remote w)) as [Hin|Hout];
    simpl; [|done].
  by rewrite union_singleton_elem.
Qed.

(** X24. [add_bulk] never fails and sends one batch, whatever the number
    of objects (none included): after the get-or-create of the model's
    index, a single [add_documents] carries the documents of the objects,
    in their order. *)
Theorem add_bulk_one_batch (m : model) (obj_list : list item) (w : wstate model) :
  add_bulk meta_label get_search_fields item_id get_value get_related column
           acknowledge m obj_list w
  = (inr (),
     WState ({[ label_of m ]} ∪ w_remote w) (w_lru w)
            (w_calls w ++ get_or_create (label_of m) w
             ++ [Write (AddDocuments (label_of m) (map (document m) obj_list))])).
Proof.
  unfold add_bulk. rewrite (w_bind_run _ _ _ _ _ (lift_get_index_for_model m w)).
  unfold add_items, add_documents, mbind, W_bind. simpl.
  rewrite decide_True by (apply elem_of_union; left; by apply elem_of_singleton).
  simpl. by rewrite foldl_snoc_map, <- app_assoc.
Qed.

(** X25. Adding one object is adding the batch of that object alone to
    the index of its type. *)
Theorem add_is_add_bulk_singleton (obj : item) (w : wstate model) :
  backend_add meta_label get_search_fields item_id get_value get_related column
              type_of acknowledge obj w
  = add_bulk meta_label get_search_fields item_id get_value get_related column
             acknowledge (type_of obj) [obj] w.
Proof.
  unfold backend_add, add_bulk.
  rewrite !(w_bind_run _ _ _ _ _ (lift_get_index_for_model (type_of obj) w)).
  unfold add_item, add_items, add_documents, mbind, W_bind. simpl.
  by destruct (decide _).
Qed.

(** X26. [delete] never fails: it gets or creates the index of the
    object's type, so that an index is created when there was none, and
    then asks for the removal of the document named by the object's
    [id]. *)
Theorem delete_sends_id (obj : item) (w : wstate model) :
  let uid := label_of (type_of obj) in
  backend_delete meta_label item_id type_of obj w
  = (inr (),
     WState ({[ uid ]} ∪ w_remote w) (w_lru w)
            (w_calls w ++ get_or_create uid w
             ++ [Write (DeleteDocument uid (item_id obj))])).
Proof.
  intros uid. unfold backend_delete.
  rewrite (w_bind_run _ _ _ _ _ (lift_get_index_for_model (type_of obj) w)).
  unfold delete_item, delete_document. simpl. fold uid.
  rewrite decide_True by (apply elem_of_union; left; by apply elem_of_singleton).
  by rewrite <- app_assoc.
Qed.

(** X27. [_rebuild] of an index the service holds deletes it and creates
    it anew (the get-or-create that follows the delete always takes the
    create branch); the service holds the same uids afterwards. When the
    service does not hold the index, [_rebuild] fails at the delete and
    creates nothing. *)
Theorem rebuild_recreates (self : model_index model) (w : wstate model) :
  let uid := ix_index self in
  uid = label_of (ix_model self) →
  _rebuild meta_label self w
  = if decide (uid ∈ w_remote w)
    then (inr (),
          WState (w_remote w) (w_lru w)
                 (w_calls w ++ [Write (DeleteIndex uid); Read (GetSettings uid);
                                Read (CreateIndex uid)]))
    else (inl (IndexNotFound uid),
          WState (w_remote w) (w_lru w) (w_calls w ++ [Write (DeleteIndex uid)])).
Proof.
  intros uid Huid. unfold _rebuild, delete_index. fold uid.
  unfold mbind at 1, W_bind at 1.
  destruct (decide (uid ∈ w_remote w)) as [Hin|Hout]; [|done].
  unfold lift, _set_index, mbind, M_bind, W_bind, get_settings. simpl.
  rewrite <- Huid.
  rewrite bool_decide_eq_false_2.
  2: { rewrite elem_of_difference, elem_of_singleton. by intros [_ Hne]. }
  simpl. rewrite union_singleton_difference by done.
  by rewrite <- app_assoc.
Qed.

(** X28. A rebuilder made for an index object the backend handed out
    always succeeds at [start]: the index exists by then, is deleted, and
    is created anew; the service ends up holding the uids it held and
    that of the model. *)
Theorem rebuilder_start_recreates (m : model) (w : wstate model) :
  let uid := label_of m in
  (index ← lift (get_index_for_model meta_label m);
   rebuilder_start meta_label (rebuilder_init meta_label index)) w
  = (inr (ModelIndex m (meta_label m) uid 999999 "true"),
     WState ({[ uid ]} ∪ w_remote w) (w_lru w)
            (w_calls w ++ get_or_create uid w
             ++ [Read (GetIndex uid); Write (DeleteIndex uid);
                 Read (GetSettings uid); Read (CreateIndex uid)])).
Proof.
  intros uid.
  rewrite (w_bind_run _ _ _ _ _ (lift_get_index_for_model m w)).
  unfold rebuilder_start, rebuilder_init. simpl. fold uid.
  unfold mbind at 1, W_bind at 1. unfold lift at 1, emit. simpl.
  unfold mbind at 1, W_bind at 1. unfold delete_index. simpl.
  rewrite decide_True by (apply elem_of_union; left; by apply elem_of_singleton).
  unfold lift, get_index_for_model, _set_index, mbind, M_bind, W_bind,
    get_settings. simpl. fold uid.
  rewrite bool_decide_eq_false_2.
  2: { rewrite elem_of_difference, elem_of_singleton. by intros [_ Hne]. }
  simpl. rewrite union_singleton_difference.
  2: { apply elem_of_union. left. by apply elem_of_singleton. }
  by rewrite <- !app_assoc.
Qed.

End IngestionFacts.

Section RefreshFacts.
Context {model : Type}.
Variable meta_label : model → string.

Local Abbreviation label_of := (_get_label meta_label).

Lemma get_index_for_model_state (m : model) (s : state model) :
  get_index_for_model meta_label m s
  = (inr (ModelIndex m (meta_label m) (label_of m) 999999 "true"),
     State ({[ label_of m ]} ∪ remote s) (lru s)
           (log s ++ [GetSettings (label_of m);
                      if bool_decide (label_of m ∈ remote s)
                      then GetIndex (label_of m) else CreateIndex (label_of m)])).
Proof.
  unfold get_index_for_model, _set_index, mbind, M_bind, get_settings. simpl.
  destruct (bool_decide_reflect (label_of m ∈ remote s)) as [Hin|Hout]; simpl.
  - by rewrite union_singleton_elem, <- app_assoc.
  - by rewrite <- app_assoc.
Qed.

Lemma refresh_loop_run (models : list model)
    (refreshed : list (model_index model)) (s : state model) :
  ∃ r s', refresh_loop meta_label models refreshed s = (inr r, s')
          ∧ remote s' = list_to_set (map label_of models) ∪ remote s
          ∧ lru s' = lru s
          ∧ searched (log s') = searched (log s)
          ∧ length (log s') = (length (log s) + 2 * length models)%nat.
Proof.
  revert refreshed s. induction models as [|m models IH]; intros refreshed s.
  - exists refreshed, s. simpl. split_and!; try done.
    by rewrite union_empty_l_L.
  - simpl. rewrite (bind_run _ _ _ _ _ (get_index_for_model_state m s)).
    edestruct IH as (r & s' & -> & Hremote & Hlru & Hsearched & Hlen).
    exists r, s'. split_and!; try done.
    + rewrite Hremote. simpl. by rewrite (assoc_L (∪)), (comm_L (∪) _ {[ _ ]}).
    + rewrite Hsearched. simpl. rewrite searched_app. simpl.
      destruct (bool_decide _); simpl; by rewrite app_nil_r.
    + rewrite Hlen. simpl. rewrite length_app. simpl. lia.
Qed.

(** X29. [refresh_index] never fails; it gets or creates the index of
    every indexed model, so that afterwards the service holds the uid of
    each of them besides the ones it held. It makes two calls per model,
    none of them a search, and leaves the memo table alone. *)
Theorem refresh_index_creates_all (get_indexed_models : list model)
    (s : state model) :
  let r := refresh_index meta_label get_indexed_models s in
  r.1 = inr ()
  ∧ remote r.2 = list_to_set (map label_of get_indexed_models) ∪ remote s
  ∧ lru r.2 = lru s
  ∧ searched (log r.2) = searched (log s)
  ∧ length (log r.2) = (length (log s) + 2 * length get_indexed_models)%nat.
Proof.
  intros r. unfold r, refresh_index.
  destruct (refresh_loop_run get_indexed_models [] s)
    as (l & s' & Hrun & Hremote & Hlru & Hsearched & Hlen).
  rewrite (bind_run _ _ _ _ _ Hrun). done.
Qed.

End RefreshFacts.

(** ** The further theorems at the example site *)

Lemma related_field_edge_values_witness :
  _get_document_fields_of Site.get_value Site.get_related Site.column
    (RelatedFields "tags" [SearchField "title"; FilterField "title"])
    (Site.Article 3 "Contact" [])
  = [("tags__title", ""); ("tags__title_filter", "")].
Proof.
  destruct (related_field_edge_values Site.get_value Site.get_related Site.column
              "tags" [SearchField "title"; FilterField "title"]
              (Site.Article 3 "Contact" [])) as [Hempty _].
  apply Hempty. reflexivity.
Defined.

Lemma create_document_last_wins_witness :
  (_get_document_fields Site.colliding_fields Site.colliding_value
     Site.get_related Site.column Site.Page Site.hello).*1
  = ["title_filter"; "title_filter"]
  ∧ _create_document Site.colliding_fields Site.article_id Site.colliding_value
      Site.get_related Site.column Site.Page Site.hello !! "title_filter"
    = Some (DocStr "set by hand").
Proof.
  split; [reflexivity|].
  apply (create_document_last_wins Site.colliding_fields Site.article_id
           Site.colliding_value Site.get_related Site.column Site.Page Site.hello
           [("title_filter", "Hello World")] []).
  - reflexivity.
  - intros Hin. apply list_elem_of_In in Hin. simpl in Hin. exact Hin.
  - discriminate.
Defined.

Lemma merge_hits_distinct_input_witness :
  merge_hits [Site.page_hit_1] [Site.page_hit_2; Site.home_hit_1]
  = [Site.page_hit_1; Site.page_hit_2; Site.home_hit_1].
Proof.
  apply (merge_hits_distinct_input [Site.page_hit_1]
           [Site.page_hit_2; Site.home_hit_1]).
  refine (bool_decide_unpack _ _). vm_compute. exact I.
Defined.

Lemma score_order_independent_witness :
  score (set_score {| hit_id := 7; hit_attrs := [];
                      hit_matchesInfo := [("title_filter", [Site.sp 10 2]);
                                          ("title", [Site.sp 10 2])] |})
  = score (set_score Site.page_hit_7).
Proof.
  apply score_order_independent. simpl. apply Permutation_swap.
Defined.

Lemma equal_hits_equal_scores_witness :
  score (set_score {| hit_id := 7; hit_attrs := [("title", "Gone with us")];
                      hit_matchesInfo := [("title_filter", [Site.sp 10 2]);
                                          ("title", [Site.sp 10 2])] |})
  = score (set_score Site.page_hit_7).
Proof.
  apply equal_hits_equal_scores.
  - refine (bool_decide_unpack _ _). vm_compute. exact I.
  - refine (bool_decide_unpack _ _). vm_compute. exact I.
  - refine (bool_decide_unpack _ _). vm_compute. exact I.
Defined.

Lemma score_monotone_witness :
  (2 ≤ score (set_score {| hit_id := 7; hit_attrs := [];
                           hit_matchesInfo := [("title", [Site.sp 10 2])] |})
   ≤ score (set_score Site.page_hit_7))%nat.
Proof.
  apply score_monotone. simpl. apply sublist_skip, sublist_nil_l.
Defined.

Lemma rebuild_recreates_witness :
  (_rebuild Site.meta_label
     (ModelIndex Site.Page "wagtailcore.Page" "wagtailcore-Page" 999999 "true")
     (WState {[ "wagtailcore-Page" ]} [] [])).1
  = inr ().
Proof.
  rewrite (rebuild_recreates Site.meta_label
             (ModelIndex Site.Page "wagtailcore.Page" "wagtailcore-Page" 999999 "true")
             (WState {[ "wagtailcore-Page" ]} [] []) eq_refl).
  rewrite decide_True; [reflexivity|]. by apply elem_of_singleton.
Defined.

Section NoHits.
Context {model record : Type} `{EqDecision model} `{EqDecision record}.
Variable meta_label : model → string.
Variable issubclass : model → model → bool.
Variable pk : record → Z.
Variable E : env model record.

(** X19. When none of the indexes searched returns a hit, [_do_search]
    returns no row, whatever the queryset, the flag and the limits. *)
Theorem do_search_no_hits (qc : query_compiler model record)
    (start : nat) (stop : option nat) (s : state model) :
  (∀ m, m ∈ resolved_models issubclass E s (qs_model (qc_queryset qc)) →
        index_hits E (_get_label meta_label m) (qc_query_string qc) = []) →
  (_do_search meta_label issubclass pk E qc start stop s).1 = inr [].
Proof.
  intros Hnone.
  destruct (_do_search_run meta_label issubclass pk E qc start stop s)
    as (s' & -> & _).
  simpl. f_equal.
  assert (all_hits meta_label E
            (resolved_models issubclass E s (qs_model (qc_queryset qc)))
            (qc_query_string qc) = []) as ->.
  { unfold all_hits. revert Hnone.
    generalize (resolved_models issubclass E s (qs_model (qc_queryset qc))).
    intros models. induction models as [|m models IH]; intros Hnone; [done|].
    simpl. rewrite Hnone by (by left). simpl. apply IH.
    intros m' Hm'. apply Hnone. by right. }
  apply materialize_nil.
Qed.

End NoHits.

Lemma do_search_no_hits_witness :
  (_do_search Site.meta_label Site.issubclass Site.pk Site.E
     (QueryCompiler MeiliSearchQueryCompiler (QuerySet Site.Page Site.rows)
                    "them" None None true true)
     0 None Site.s0).1
  = inr [].
Proof.
  apply do_search_no_hits. intros m _. reflexivity.
Defined.

(* ===================================================================== *)
(** * Two runs of the pipeline *)
(* ===================================================================== *)

Section TwoRuns.
Context {model record : Type} `{EqDecision model} `{EqDecision record}.
Variable meta_label : model → string.
Variable issubclass : model → model → bool.
Variable pk : record → Z.





End TwoRuns.


